(** * JuryBot: case lifecycle and vote resolution

    A shallow embedding of [jurybot/models.py], [jurybot/config.py],
    the vote, case-status and blacklist operations of [jurybot/storage.py]
    and the resolution engine of [jurybot/services/case.py]; further
    on, the permission check of [jurybot/services/admin.py] and the
    report handler of [jurybot/services/case.py] with the storage
    operations it uses.

    Conventions.
    - Python [int] is [Z]; [float] is modelled by exact rationals [Q]
      (no statement below depends on rounding).
    - A [datetime] is a number of seconds ([Z]); [timedelta(seconds=n)]
      adds [n].
    - [async] methods run to completion one after the other: a handler is
      a function from the world before it to its result and the world
      after it.  The world holds the SQLite tables, the trace of every
      transport call and store write in program order, and the outside
      world (clock readings and Telegram's answers), consulted through a
      counter so that any sequence of answers can be supplied. *)

From stdpp Require Import gmap strings list fin_maps pretty.
From Stdlib Require Import QArith Qround.

Open Scope Z_scope.

(** ** models.py *)

Module Models.

Inductive CaseStatus := OPEN | CONFIRMED | REJECTED | EXPIRED.

Inductive VoteDecision := SPAM | NOT_SPAM.

#[global] Instance CaseStatus_eq_dec : EqDecision CaseStatus.
Proof. solve_decision. Defined.

#[global] Instance VoteDecision_eq_dec : EqDecision VoteDecision.
Proof. solve_decision. Defined.

(** A JSON scalar, as found in a settings dictionary. *)
Inductive value :=
| VInt (n : Z)
| VFloat (q : Q)
| VBool (b : bool)
| VStr (s : string).

Record CaseRecord := mkCase {
  id : Z;
  chat_id : Z;
  message_id : Z;
  offender_id : Z;
  reporter_id : Z;
  status : CaseStatus;
  opened_at : Z;
  closes_at : Z;
  poll_chat_id : option Z;
  poll_message_id : option Z;
  config_snapshot : gmap string value;
  participant_target : Z
}.

Record VoteRecord := mkVote {
  v_case_id : Z;
  v_voter_id : Z;
  v_decision : VoteDecision;
  v_updated_at : Z
}.

(** [case.status = st], the in-memory assignment of the handlers. *)
Definition with_status (st : CaseStatus) (c : CaseRecord) : CaseRecord :=
  mkCase (id c) (chat_id c) (message_id c) (offender_id c) (reporter_id c)
         st (opened_at c) (closes_at c) (poll_chat_id c)
         (poll_message_id c) (config_snapshot c) (participant_target c).

Definition terminal (st : CaseStatus) : bool :=
  match st with OPEN => false | _ => true end.

End Models.

Export Models.

(** ** config.py *)

Module Config.

(** A [ChatSettings] object that went through the pydantic constructor:
    every attribute has the type of its annotation. *)
Record ChatSettings := mkSettings {
  min_participation_ratio : Q;
  min_participation_count : Z;
  approval_ratio : Q;
  quorum_strategy : string;
  action_on_confirm : string;
  mute_duration_sec : Z;
  blacklist_enabled : bool;
  vote_timeout_sec : Z;
  allow_vote_retract : bool;
  max_cases_per_user_hour : Z;
  auto_close_on_deleted_msg : bool;
  min_account_age_hours : Z
}.

(** [ChatSettings()]: the defaults of the field declarations. *)
Definition ChatSettings_default : ChatSettings :=
  mkSettings (5 # 100) 5 (6 # 10) "ratio_and_count" "ban" 3600 true
             14400 true 3 true 0.

(** A settings object with another [quorum_strategy]. *)
Definition with_quorum_strategy (q : string) (s : ChatSettings) : ChatSettings :=
  mkSettings (min_participation_ratio s) (min_participation_count s)
             (approval_ratio s) q (action_on_confirm s)
             (mute_duration_sec s) (blacklist_enabled s)
             (vote_timeout_sec s) (allow_vote_retract s)
             (max_cases_per_user_hour s) (auto_close_on_deleted_msg s)
             (min_account_age_hours s).

(** [model_dump()]: the attribute dictionary of a settings object. *)
Definition model_dump (s : ChatSettings) : gmap string value :=
  list_to_map
    [ ("min_participation_ratio", VFloat (min_participation_ratio s));
      ("min_participation_count", VInt (min_participation_count s));
      ("approval_ratio", VFloat (approval_ratio s));
      ("quorum_strategy", VStr (quorum_strategy s));
      ("action_on_confirm", VStr (action_on_confirm s));
      ("mute_duration_sec", VInt (mute_duration_sec s));
      ("blacklist_enabled", VBool (blacklist_enabled s));
      ("vote_timeout_sec", VInt (vote_timeout_sec s));
      ("allow_vote_retract", VBool (allow_vote_retract s));
      ("max_cases_per_user_hour", VInt (max_cases_per_user_hour s));
      ("auto_close_on_deleted_msg", VBool (auto_close_on_deleted_msg s));
      ("min_account_age_hours", VInt (min_account_age_hours s)) ].

(** The [ge] / [le] arguments of the [Field(...)] declarations. *)
Definition declared_bounds : list (string * (option Q * option Q)) :=
  [ ("min_participation_ratio", (Some 0%Q, Some 1%Q));
    ("min_participation_count", (Some 1%Q, None));
    ("approval_ratio", (Some 0%Q, Some 1%Q));
    ("mute_duration_sec", (Some 60%Q, None));
    ("vote_timeout_sec", (Some 30%Q, None));
    ("max_cases_per_user_hour", (Some 1%Q, None));
    ("min_account_age_hours", (Some 0%Q, None)) ].

Definition numeric (v : value) : option Q :=
  match v with
  | VInt n => Some (inject_Z n)
  | VFloat q => Some q
  | _ => None
  end.

Definition ge_ok (lo : option Q) (q : Q) : bool :=
  match lo with Some l => Qle_bool l q | None => true end.

Definition le_ok (hi : option Q) (q : Q) : bool :=
  match hi with Some h => Qle_bool q h | None => true end.

Definition within (b : option Q * option Q) (v : value) : bool :=
  match numeric v with
  | Some q => ge_ok (fst b) q && le_ok (snd b) q
  | None => false
  end.

(** Every bounded field of the attribute dictionary holds a number
    inside its declared range. *)
Definition bounds_ok (d : gmap string value) : bool :=
  forallb (fun kb : string * (option Q * option Q) =>
             match d !! fst kb with
             | Some v => within (snd kb) v
             | None => false
             end) declared_bounds.

(** pydantic's [model_copy(update=...)]: the attribute dictionary is
    copied and the entries of [update] are written over it; nothing is
    validated. *)
Definition model_copy (self : ChatSettings) (update : gmap string value)
  : gmap string value :=
  update ∪ model_dump self.

(** [ChatSettings.merge]: [self.model_copy(update=overrides or {})].
    The result is an unvalidated object, given by its attributes. *)
Definition merge (self : ChatSettings) (overrides : option (gmap string value))
  : gmap string value :=
  model_copy self (default ∅ overrides).

(** Validation of one keyword argument of the constructor.  A missing
    key takes the field default.  A value of another JSON type than the
    annotation is refused here; pydantic's lax coercions of such values
    (numeric strings and the like) are outside this model, an integer
    for a float field apart. *)
Definition float_field (kw : gmap string value) (k : string) (dflt : Q)
    (b : option Q * option Q) : option Q :=
  match kw !! k with
  | None => Some dflt
  | Some (VFloat q) => if within b (VFloat q) then Some q else None
  | Some (VInt n) => if within b (VInt n) then Some (inject_Z n) else None
  | Some _ => None
  end.

Definition int_field (kw : gmap string value) (k : string) (dflt : Z)
    (b : option Q * option Q) : option Z :=
  match kw !! k with
  | None => Some dflt
  | Some (VInt n) => if within b (VInt n) then Some n else None
  | Some _ => None
  end.

Definition bool_field (kw : gmap string value) (k : string) (dflt : bool)
  : option bool :=
  match kw !! k with
  | None => Some dflt
  | Some (VBool x) => Some x
  | Some _ => None
  end.

Definition literal_field (kw : gmap string value) (k : string)
    (dflt : string) (allowed : list string) : option string :=
  match kw !! k with
  | None => Some dflt
  | Some (VStr x) => if bool_decide (x ∈ allowed) then Some x else None
  | Some _ => None
  end.

(** The constructor [ChatSettings] applied to the keyword arguments
    [kw]: [None] stands for [ValidationError]. *)
Definition ChatSettings_init (kw : gmap string value) : option ChatSettings :=
  r ← float_field kw "min_participation_ratio" (5 # 100) (Some 0%Q, Some 1%Q);
  c ← int_field kw "min_participation_count" 5 (Some 1%Q, None);
  a ← float_field kw "approval_ratio" (6 # 10) (Some 0%Q, Some 1%Q);
  q ← literal_field kw "quorum_strategy" "ratio_and_count"
        ["ratio_only"; "ratio_and_count"; "count_only"];
  act ← literal_field kw "action_on_confirm" "ban"
        ["ban"; "kick"; "delete_only"; "mute"];
  m ← int_field kw "mute_duration_sec" 3600 (Some 60%Q, None);
  bl ← bool_field kw "blacklist_enabled" true;
  t ← int_field kw "vote_timeout_sec" 14400 (Some 30%Q, None);
  ar ← bool_field kw "allow_vote_retract" true;
  mx ← int_field kw "max_cases_per_user_hour" 3 (Some 1%Q, None);
  ac ← bool_field kw "auto_close_on_deleted_msg" true;
  ag ← int_field kw "min_account_age_hours" 0 (Some 0%Q, None);
  Some (mkSettings r c a q act m bl t ar mx ac ag).

End Config.

Export Config.

(** ** Effects: the world, its trace and the handler monad *)

Module Runtime.

(** Exceptions that cross a function boundary in the modelled code.
    [TelegramOtherError] is any exception of a transport call that is
    not a [TelegramBadRequest] (network failure, flood control, ...). *)
Inductive exn :=
| TelegramBadRequest
| TelegramOtherError
| ValidationError
| ValueError.

(** The text of a message: a literal, or the live ballot of
    [_format_poll_text] kept as the numbers it prints (case id,
    required participants, approval ratio, spam, not-spam and total
    votes, participants still needed, deadline). *)
Inductive Text :=
| Plain (s : string)
| Ballot (case_id target : Z) (approval : Q)
         (spam_votes not_spam_votes total_voters remaining closes : Z).

(** An inline keyboard: rows of (label, callback data). *)
Definition Keyboard := list (list (string * string)).

(** The transport calls of [aiogram.Bot] used by the engine, and
    [CallbackQuery.answer]. *)
Inductive BotCall :=
| delete_message (chat msg : Z)
| ban_chat_member (chat user : Z)
| unban_chat_member (chat user : Z)
| restrict_chat_member (chat user until_date : Z)
| edit_message_text (chat msg : Z) (text : Text) (markup : option Keyboard)
| answer (text : string) (show_alert : bool)
| get_chat_member_count (chat : Z).

(** The writes to the SQLite tables, with the timestamp column where
    the statement sets one. *)
Inductive StoreWrite :=
| SetCaseStatus (case_id : Z) (st : CaseStatus)
| RecordVote (case_id voter_id : Z) (d : VoteDecision) (updated_at : Z)
| RetractVote (case_id voter_id : Z)
| BlacklistAdd (chat user : Z) (reason : option string) (added_at : Z).

Inductive LogLevel := INFO | WARNING.

(** What happened, in program order. *)
Inductive Event :=
| Called (call : BotCall) (outcome : option exn)
| Committed (wr : StoreWrite)
| Slept (seconds : Z)
| Logged (level : LogLevel).

(** The outside world.  The [n]-th consultation reads the clock
    ([clock n]), learns whether a transport call raises
    ([telegram n call], [None] for success) and what a successful
    member-count request returns.  [int_of_str] is Python's built-in
    [int] on a string, [None] for [ValueError]. *)
Record Env := mkEnv {
  clock : nat → Z;
  telegram : nat → BotCall → option exn;
  member_count : nat → Z;
  int_of_str : string → option Z
}.

(** The [blacklist] table maps (chat, user) to (reason, added_at); the
    [cases] table maps the row id to the row.  The [votes] table is
    kept as its list of rows, so that uniqueness of the primary key
    (case_id, voter_id) is a property to establish, not a feature of
    the representation.  [tick] counts the consultations of the
    outside world so far. *)
Record World := mkWorld {
  cases : gmap Z CaseRecord;
  votes : list VoteRecord;
  blacklist : gmap (Z * Z) (option string * Z);
  trace : list Event;
  tick : nat
}.

Definition emit (e : Event) (w : World) : World :=
  mkWorld (cases w) (votes w) (blacklist w) (trace w ++ [e]) (tick w).

Definition next_tick (w : World) : World :=
  mkWorld (cases w) (votes w) (blacklist w) (trace w) (S (tick w)).

Inductive Result (A : Type) :=
| Ret (a : A)
| Raise (e : exn).

Arguments Ret {A} a.
Arguments Raise {A} e.

Definition M (A : Type) : Type := Env → World → Result A * World.

Definition ret {A} (a : A) : M A := λ _ w, (Ret a, w).

Definition raise {A} (e : exn) : M A := λ _ w, (Raise e, w).

Definition bind {A B} (m : M A) (k : A → M B) : M B :=
  λ env w, match m env w with
           | (Ret a, w') => k a env w'
           | (Raise e, w') => (Raise e, w')
           end.

#[global] Instance M_ret : MRet M := @ret.
#[global] Instance M_bind : MBind M := λ A B k m, bind m k.

(** [try: body / except TelegramBadRequest: handler]. *)
Definition try_except_bad_request {A} (body handler : M A) : M A :=
  λ env w, match body env w with
           | (Raise TelegramBadRequest, w') => handler env w'
           | r => r
           end.

(** [datetime.now(tz=timezone.utc)]. *)
Definition now : M Z :=
  λ env w, (Ret (clock env (tick w)), next_tick w).

(** One transport call: its outcome is recorded, then returned or
    raised. *)
Definition call (c : BotCall) : M unit :=
  λ env w, let o := telegram env (tick w) c in
           let w' := next_tick (emit (Called c o) w) in
           match o with
           | None => (Ret (), w')
           | Some e => (Raise e, w')
           end.

(** [asyncio.sleep]. *)
Definition sleep (seconds : Z) : M unit :=
  λ _ w, (Ret (), emit (Slept seconds) w).

Definition log (level : LogLevel) : M unit :=
  λ _ w, (Ret (), emit (Logged level) w).

Fixpoint for_each {A} (l : list A) (body : A → M unit) : M unit :=
  match l with
  | [] => ret ()
  | x :: l' => body x ;; for_each l' body
  end.

End Runtime.

Export Runtime.

(** ** storage.py *)

Module Storage.

Definition same_key (case_id voter_id : Z) (v : VoteRecord) : bool :=
  (v_case_id v =? case_id) && (v_voter_id v =? voter_id).

(** [INSERT INTO votes ... ON CONFLICT(case_id, voter_id) DO UPDATE SET
    decision = excluded.decision, updated_at = excluded.updated_at]. *)
Definition upsert_vote (row : VoteRecord) (tbl : list VoteRecord) : list VoteRecord :=
  if existsb (same_key (v_case_id row) (v_voter_id row)) tbl
  then map (λ v, if same_key (v_case_id row) (v_voter_id row) v
                 then mkVote (v_case_id v) (v_voter_id v)
                             (v_decision row) (v_updated_at row)
                 else v) tbl
  else tbl ++ [row].

(** [DELETE FROM votes WHERE case_id = ? AND voter_id = ?]. *)
Definition delete_vote (case_id voter_id : Z) (tbl : list VoteRecord) : list VoteRecord :=
  filter (λ v, same_key case_id voter_id v = false) tbl.

(** The effect of a write on the tables. *)
Definition apply_write (wr : StoreWrite) (w : World) : World :=
  match wr with
  | SetCaseStatus case_id st =>
      (* UPDATE cases SET status = ? WHERE id = ? *)
      mkWorld (alter (with_status st) case_id (cases w))
              (votes w) (blacklist w) (trace w) (tick w)
  | RecordVote case_id voter_id d t =>
      mkWorld (cases w) (upsert_vote (mkVote case_id voter_id d t) (votes w))
              (blacklist w) (trace w) (tick w)
  | RetractVote case_id voter_id =>
      mkWorld (cases w) (delete_vote case_id voter_id (votes w))
              (blacklist w) (trace w) (tick w)
  | BlacklistAdd chat user reason t =>
      (* INSERT ... ON CONFLICT(chat_id, user_id) DO UPDATE SET
         reason = excluded.reason, added_at = excluded.added_at *)
      mkWorld (cases w) (votes w)
              (<[(chat, user) := (reason, t)]> (blacklist w))
              (trace w) (tick w)
  end.

(** A statement followed by [commit()]: the tables change and the
    write is recorded. *)
Definition commit (wr : StoreWrite) : M unit :=
  λ _ w, (Ret (), emit (Committed wr) (apply_write wr w)).

(** [SELECT * FROM cases WHERE id = ?]. *)
Definition get_case (case_id : Z) : M (option CaseRecord) :=
  λ _ w, (Ret (cases w !! case_id), w).

Definition set_case_status (case_id : Z) (st : CaseStatus) : M unit :=
  commit (SetCaseStatus case_id st).

(** [SELECT * FROM cases WHERE status = 'open']. *)
Definition list_open_cases : M (list CaseRecord) :=
  λ _ w, (Ret (filter (λ c, status c = OPEN) (map_to_list (cases w)).*2), w).

Definition record_vote (case_id voter_id : Z) (decision : VoteDecision) : M unit :=
  t ← now;
  commit (RecordVote case_id voter_id decision t).

Definition retract_vote (case_id voter_id : Z) : M unit :=
  commit (RetractVote case_id voter_id).

(** [SELECT * FROM votes WHERE case_id = ?]. *)
Definition get_votes (case_id : Z) : M (list VoteRecord) :=
  λ _ w, (Ret (filter (λ v, v_case_id v = case_id) (votes w)), w).

Definition blacklist_add (chat user : Z) (reason : option string) : M unit :=
  t ← now;
  commit (BlacklistAdd chat user reason t).

Definition blacklist_contains (chat user : Z) : M bool :=
  λ _ w, (Ret (bool_decide (is_Some (blacklist w !! (chat, user)))), w).




(** The [id] column is the key of [cases]. *)
Definition keyed (tbl : gmap Z CaseRecord) : Prop :=
  map_Forall (λ k c, id c = k) tbl.

End Storage.

Export Storage.

(** ** services/case.py *)

Module Case.

(** Line feed, for the message literals. *)
Definition LF : string := String (Ascii.ascii_of_nat 10) "".

Definition COLON : Ascii.ascii := Ascii.ascii_of_nat 58.

(** [data.split(":")]. *)
Fixpoint split_colon (s : string) : list string :=
  match s with
  | EmptyString => [""]
  | String c s' =>
      if Ascii.eqb c COLON then "" :: split_colon s'
      else match split_colon s' with
           | h :: t => String c h :: t
           | [] => [String c ""]
           end
  end.

Definition _build_keyboard (case_id : Z) (allow_retract : bool) : Keyboard :=
  let buttons :=
    [ [ ("✅ 是 Spam", "jury:vote:" +:+ pretty case_id +:+ ":spam");
        ("❌ 不是 Spam", "jury:vote:" +:+ pretty case_id +:+ ":not") ] ] in
  if allow_retract
  then buttons ++ [ [ ("↩ 撤回投票", "jury:vote:" +:+ pretty case_id +:+ ":retract") ] ]
  else buttons.

(** Python truth value of an [int | None]. *)
Definition truthy (o : option Z) : bool :=
  match o with
  | Some n => negb (n =? 0)
  | None => false
  end.

(** [ChatSettings] built from [case.config_snapshot]. *)
Definition settings_of (snapshot : gmap string value) : M ChatSettings :=
  match ChatSettings_init snapshot with
  | Some s => ret s
  | None => raise ValidationError
  end.

Definition py_int (s : string) : M (option Z) :=
  λ env w, (Ret (int_of_str env s), w).

Definition _participation_met (total : Z) (settings : ChatSettings)
    (participant_target : Z) : bool :=
  let count_ok := total >=? min_participation_count settings in
  let ratio_ok := total >=? participant_target in
  if String.eqb (quorum_strategy settings) "ratio_only" then ratio_ok
  else if String.eqb (quorum_strategy settings) "count_only" then count_ok
  else ratio_ok && count_ok.

Definition _format_poll_text (case : CaseRecord) (settings : ChatSettings)
    (spam_votes not_spam_votes total_voters : Z) : Text :=
  let remaining := Z.max (participant_target case - total_voters) 0 in
  Ballot (id case) (participant_target case) (approval_ratio settings)
         spam_votes not_spam_votes total_voters remaining (closes_at case).

Definition _fetch_member_count (chat : Z) : M Z :=
  try_except_bad_request
    (λ env w, match call (get_chat_member_count chat) env w with
              | (Ret _, w') => (Ret (member_count env (tick w)), w')
              | (Raise e, w') => (Raise e, w')
              end)
    (ret 100).

(** The participant target of [handle_report]. *)
Definition participant_target_for (settings : ChatSettings)
    (chat_member_count : Z) : Z :=
  Z.max (min_participation_count settings)
        (Qceiling (min_participation_ratio settings * inject_Z chat_member_count)).

Definition _ban_user (chat user : Z) : M unit :=
  try_except_bad_request (call (ban_chat_member chat user)) (log WARNING).

Definition _kick_user (chat user : Z) : M unit :=
  try_except_bad_request
    (call (ban_chat_member chat user) ;;
     sleep 1 ;;
     call (unban_chat_member chat user))
    (log WARNING).

Definition _mute_user (chat user : Z) (settings : ChatSettings) : M unit :=
  t ← now;
  let until_date := t + mute_duration_sec settings in
  try_except_bad_request
    (call (restrict_chat_member chat user until_date))
    (log WARNING).

Definition _enforce_actions (case : CaseRecord) (settings : ChatSettings) : M unit :=
  try_except_bad_request
    (call (delete_message (chat_id case) (message_id case)))
    (log INFO) ;;
  if String.eqb (action_on_confirm settings) "delete_only" then ret ()
  else
    (if String.eqb (action_on_confirm settings) "ban"
     then _ban_user (chat_id case) (offender_id case)
     else if String.eqb (action_on_confirm settings) "kick"
     then _kick_user (chat_id case) (offender_id case)
     else if String.eqb (action_on_confirm settings) "mute"
     then _mute_user (chat_id case) (offender_id case) settings
     else ret ()) ;;
    if blacklist_enabled settings
    then blacklist_add (chat_id case) (offender_id case)
                       (Some ("Case #" +:+ pretty (id case)))
    else ret ().

(** The handlers assign [case.status] on the record they hold; the
    model returns the updated record. *)
Definition _confirm_case (case : CaseRecord) (settings : ChatSettings)
  : M CaseRecord :=
  set_case_status (id case) CONFIRMED ;;
  let case := with_status CONFIRMED case in
  _enforce_actions case settings ;;
  (if truthy (poll_chat_id case) && truthy (poll_message_id case)
   then try_except_bad_request
          (call (edit_message_text
                   (default 0 (poll_chat_id case))
                   (default 0 (poll_message_id case))
                   (Plain ("✅ 多数判定该消息为 Spam。案件 #" +:+ pretty (id case)
                           +:+ " 已执行。" +:+ LF +:+ "感谢参与投票！"))
                   None))
          (ret ())
   else ret ()) ;;
  ret case.

Definition _close_case (case : CaseRecord) (settings : ChatSettings)
    (expired : bool) : M CaseRecord :=
  let new_status := if expired then EXPIRED else REJECTED in
  set_case_status (id case) new_status ;;
  let case := with_status new_status case in
  let status_text : string :=
    if expired then "投票超时，判定未成立。" else "票数不足，判定未成立。" in
  (if truthy (poll_chat_id case) && truthy (poll_message_id case)
   then try_except_bad_request
          (call (edit_message_text
                   (default 0 (poll_chat_id case))
                   (default 0 (poll_message_id case))
                   (Plain (status_text +:+ LF +:+ LF +:+ "案件 #" +:+ pretty (id case)))
                   None))
          (ret ())
   else ret ()) ;;
  ret case.

Definition _maybe_resolve (case : CaseRecord) (settings : ChatSettings)
    (spam_votes not_spam_votes total : Z) : M CaseRecord :=
  if negb (bool_decide (status case = OPEN)) then ret case
  else
    t ← now;
    if t >=? closes_at case then _close_case case settings true
    else if total =? 0 then ret case
    else
      let participation_ok :=
        _participation_met total settings (participant_target case) in
      let ratio := (inject_Z spam_votes / inject_Z total)%Q in
      let ratio_ok := Qle_bool (approval_ratio settings) ratio in
      if participation_ok && ratio_ok then _confirm_case case settings
      else ret case.

Definition _refresh_poll (case : CaseRecord) (settings : ChatSettings) : M unit :=
  votes ← get_votes (id case);
  let spam_votes := Z.of_nat (length (filter (λ v, v_decision v = SPAM) votes)) in
  let not_spam_votes := Z.of_nat (length (filter (λ v, v_decision v = NOT_SPAM) votes)) in
  let total := Z.of_nat (length votes) in
  case ← _maybe_resolve case settings spam_votes not_spam_votes total;
  if negb (bool_decide (status case = OPEN)) then ret ()
  else if truthy (poll_chat_id case) && truthy (poll_message_id case)
  then
    let text := _format_poll_text case settings spam_votes not_spam_votes total in
    try_except_bad_request
      (call (edit_message_text
               (default 0 (poll_chat_id case))
               (default 0 (poll_message_id case))
               text
               (Some (_build_keyboard (id case) (allow_vote_retract settings)))))
      (log WARNING)
  else ret ().

(** The tail of [handle_vote_callback], after the vote table was
    written. *)
Definition vote_recorded (vote_updated : bool) (case : CaseRecord)
    (settings : ChatSettings) : M unit :=
  if negb vote_updated then call (answer "未能更新投票。" true)
  else
    call (answer "投票已记录。" false) ;;
    _refresh_poll case settings.

(** [handle_vote_callback] from the line that builds [settings] on:
    [case] was read from the store and is open. *)
Definition vote_on_open_case (case : CaseRecord) (decision_str : string)
    (voter_id : Z) : M unit :=
  settings ← settings_of (config_snapshot case);
  if String.eqb decision_str "retract" then
    if negb (allow_vote_retract settings)
    then call (answer "当前群聊未开启撤回投票。" true)
    else
      retract_vote (id case) voter_id ;;
      vote_recorded true case settings
  else
    let decision :=
      if String.eqb decision_str "spam" then SPAM else NOT_SPAM in
    record_vote (id case) voter_id decision ;;
    vote_recorded true case settings.

(** [data] is [callback.data], [voter_id] is [callback.from_user.id]. *)
Definition handle_vote_callback (data : option string) (voter_id : Z) : M unit :=
  let data := default "" data in
  let parts := split_colon data in
  if (length parts <? 4)%nat then call (answer "无效的投票数据。" true)
  else
    match parts with
    | [_; action; case_id_str; decision_str] =>
        if negb (String.eqb action "vote") then call (answer "未知操作。" true)
        else
          parsed ← py_int case_id_str;
          match parsed with
          | None => call (answer "无效案例。" true)
          | Some case_id =>
              found ← get_case case_id;
              match found with
              | None => call (answer "案例不存在或已关闭。" true)
              | Some case =>
                  if negb (bool_decide (status case = OPEN))
                  then call (answer "此案例已结束。" false)
                  else vote_on_open_case case decision_str voter_id
              end
          end
    | _ => raise ValueError (* too many values to unpack *)
    end.

Definition _schedule_expiry_check (case_id : Z) (closes_at : Z) : M unit :=
  t ← now;
  let delay := Z.max (closes_at - t) 0 in
  sleep delay ;;
  found ← get_case case_id;
  match found with
  | None => ret ()
  | Some case =>
      if negb (bool_decide (status case = OPEN)) then ret ()
      else
        settings ← settings_of (config_snapshot case);
        _close_case case settings true ;;
        ret ()
  end.

Definition expire_overdue_cases : M unit :=
  t ← now;
  cases ← list_open_cases;
  for_each cases (λ case,
    if t >=? closes_at case then
      settings ← settings_of (config_snapshot case);
      _close_case case settings true ;;
      ret ()
    else ret ()).

End Case.

Export Case.

(** ** Reading the trace *)

Module Audit.

(** The three ways the engine re-evaluates cases. *)
Inductive entry :=
| Vote (data : option string) (voter_id : Z)
| Timer (case_id closes_at : Z)
| Sweep.

Definition run (e : entry) : M unit :=
  match e with
  | Vote data voter_id => handle_vote_callback data voter_id
  | Timer case_id closes_at => _schedule_expiry_check case_id closes_at
  | Sweep => expire_overdue_cases
  end.

(** The events of [_enforce_actions]: message deletion, the member
    actions and the blacklist write. *)
Definition enforcement (e : Event) : bool :=
  match e with
  | Called (delete_message _ _) _
  | Called (ban_chat_member _ _) _
  | Called (unban_chat_member _ _) _
  | Called (restrict_chat_member _ _ _) _
  | Committed (BlacklistAdd _ _ _ _) => true
  | _ => false
  end.

Definition status_commit (e : Event) : bool :=
  match e with
  | Committed (SetCaseStatus _ _) => true
  | _ => false
  end.

Definition vote_write (e : Event) : bool :=
  match e with
  | Committed (RecordVote _ _ _ _)
  | Committed (RetractVote _ _) => true
  | _ => false
  end.

(** Events that touch neither the case status nor the votes. *)
Definition quiet (e : Event) : Prop :=
  status_commit e = false ∧ vote_write e = false.

(** Events that, in addition, are no enforcement. *)
Definition harmless (e : Event) : Prop :=
  quiet e ∧ enforcement e = false.

(** The tables after the writes of a piece of trace. *)
Fixpoint replay (delta : list Event) (w : World) : World :=
  match delta with
  | [] => w
  | Committed wr :: delta' => replay delta' (apply_write wr w)
  | _ :: delta' => replay delta' w
  end.

Definition same_tables (w1 w2 : World) : Prop :=
  cases w1 = cases w2 ∧ votes w1 = votes w2 ∧ blacklist w1 = blacklist w2.

(** [w'] comes after [w]: the trace grew by events that all satisfy
    [P], and the tables are those of [w] after the recorded writes. *)
Definition evolves (P : Event → Prop) (w w' : World) : Prop :=
  ∃ delta, trace w' = trace w ++ delta ∧ Forall P delta
           ∧ same_tables w' (replay delta w).

Definition emits (P : Event → Prop) {A} (m : M A) : Prop :=
  ∀ env w, evolves P w (m env w).2.

(** A status change of one row: none, or from OPEN to a terminal
    status. *)
Definition monotone (before after : gmap Z CaseRecord) : Prop :=
  ∀ k c, before !! k = Some c →
    ∃ c', after !! k = Some c'
          ∧ (status c' = status c
             ∨ (status c = OPEN ∧ terminal (status c') = true)).

(** A status write that resolves a case of the table [before]: it
    sets [st] on a row that is OPEN there. *)
Definition resolves (before : gmap Z CaseRecord) (st : CaseStatus)
    (e : Event) : Prop :=
  ∀ k st', e = Committed (SetCaseStatus k st') →
    st' = st ∧ ∃ c, before !! k = Some c ∧ status c = OPEN.




(** No transport call raises anything but [TelegramBadRequest]. *)
Definition only_bad_requests (env : Env) : Prop :=
  ∀ n c e, telegram env n c = Some e → e = TelegramBadRequest.

(** The computation returns whatever the world it starts from. *)
Definition succeeds {A} (m : M A) (env : Env) : Prop :=
  ∀ w, ∃ a, (m env w).1 = Ret a.

(** A callback field: a string without the separator. *)
Fixpoint no_colon (s : string) : bool :=
  match s with
  | EmptyString => true
  | String c s' => negb (Ascii.eqb c COLON) && no_colon s'
  end.

End Audit.

Export Audit.

(** ** Concrete worlds for the examples *)

Module Examples.

Definition digit_of (c : Ascii.ascii) : option Z :=
  let n := Z.of_nat (Ascii.nat_of_ascii c) in
  if (48 <=? n) && (n <=? 57) then Some (n - 48) else None.

Fixpoint digits (acc : Z) (s : string) : option Z :=
  match s with
  | EmptyString => Some acc
  | String c s' =>
      match digit_of c with
      | Some d => digits (10 * acc + d) s'
      | None => None
      end
  end.

(** [int] on a non-empty string of ASCII digits. *)
Definition decimal_int (s : string) : option Z :=
  match s with
  | EmptyString => None
  | _ => digits 0 s
  end.

(** Every transport call succeeds; the clock advances by one second at
    each reading from [t0]. *)
Definition calm (t0 : Z) : Env :=
  mkEnv (λ n, t0 + Z.of_nat n) (λ _ _, None) (λ _, 100) decimal_int.

(** Member bans fail with an error other than [TelegramBadRequest]. *)
Definition ban_unreachable (t0 : Z) : Env :=
  mkEnv (λ n, t0 + Z.of_nat n)
        (λ _ c, match c with
                | ban_chat_member _ _ => Some TelegramOtherError
                | _ => None
                end)
        (λ _, 100) decimal_int.

(** The defaults with another action on confirmation. *)
Definition settings_with_action (action : string) : ChatSettings :=
  mkSettings (5 # 100) 5 (6 # 10) "ratio_and_count" action 3600 true
             14400 true 3 true 0.


(** Case 1 of the test suite: chat -123, message 42, offender 1001,
    reporter 2002, opened at 970, closing at 1300, default settings
    unless [overrides] says otherwise, no ballot posted. *)
Definition case1 (st : CaseStatus) (overrides : gmap string value)
    (target : Z) : CaseRecord :=
  mkCase 1 (-123) 42 1001 2002 st 970 1300 None None
         (merge ChatSettings_default (Some overrides)) target.

Definition world1 (c : CaseRecord) (vs : list VoteRecord) : World :=
  mkWorld {[ id c := c ]} vs ∅ [] 0.

End Examples.

Export Examples.


(** ** Settings inside their declared ranges *)

Module Validity.

Definition in_unit (q : Q) : bool := Qle_bool 0 q && Qle_bool q 1.

(** What the field declarations of [ChatSettings] demand of a typed
    settings object: the [ge] / [le] bounds and the [Literal] sets. *)
Definition valid (s : ChatSettings) : bool :=
  in_unit (min_participation_ratio s)
  && (1 <=? min_participation_count s)
  && in_unit (approval_ratio s)
  && bool_decide (quorum_strategy s ∈ ["ratio_only"; "ratio_and_count"; "count_only"])
  && bool_decide (action_on_confirm s ∈ ["ban"; "kick"; "delete_only"; "mute"])
  && (60 <=? mute_duration_sec s)
  && (30 <=? vote_timeout_sec s)
  && (1 <=? max_cases_per_user_hour s)
  && (0 <=? min_account_age_hours s).

End Validity.

Export Validity.

(** ** services/admin.py: who may administer a chat *)

Module Admin.

(** The class of a member object in the answer of
    [get_chat_administrators]. *)
Inductive MemberClass :=
| ChatMemberOwner
| ChatMemberAdministrator
| ChatMemberMember
| ChatMemberRestricted
| ChatMemberLeft
| ChatMemberBanned.

Record ChatMember := mkMember {
  user_id : Z;
  member_class : MemberClass
}.

Inductive Request :=
| GetChatAdministrators (chat_id : Z)
| GetChatMember (chat_id user : Z)
| Warning.

(** The outside world of the service at its [n]-th consultation:
    [time.time()] (a float, idealised as a rational), the answer of
    [get_chat_administrators] and the [status] of the member that
    [get_chat_member] returns. *)
Record AdminEnv := mkAdminEnv {
  time : nat → Q;
  chat_administrators : nat → Z → list ChatMember + exn;
  chat_member_status : nat → Z → Z → string + exn
}.

(** The attributes of [AdminService] that the permission check uses;
    [_admin_cache] maps a chat to (expiry, ids).  [requests] lists the
    transport calls and warnings in program order, [served] counts the
    consultations of the outside world. *)
Record AdminService := mkAdmin {
  owner_ids : gset Z;
  _admin_cache : gmap Z (Q * gset Z);
  requests : list Request;
  served : nat
}.

Definition _admin_cache_ttl : Q := 300.

Definition observe (evs : list Request) (a : AdminService) : AdminService :=
  mkAdmin (owner_ids a) (_admin_cache a) (requests a ++ evs) (S (served a)).

Definition remember (chat_id : Z) (entry : Q * gset Z) (a : AdminService) : AdminService :=
  mkAdmin (owner_ids a) (<[chat_id := entry]> (_admin_cache a)) (requests a) (served a).

(** [isinstance(admin, (ChatMemberAdministrator, ChatMemberOwner))]. *)
Definition is_administrator (m : ChatMember) : bool :=
  match member_class m with
  | ChatMemberAdministrator | ChatMemberOwner => true
  | _ => false
  end.

Definition Qlt_bool (x y : Q) : bool := negb (Qle_bool y x).

Definition _get_admin_ids (chat_id : Z) (env : AdminEnv) (a : AdminService)
  : Result (gset Z) * AdminService :=
  let now := time env (served a) in
  let a1 := observe [] a in
  let fetch :=
    match chat_administrators env (served a1) chat_id with
    | inl admins =>
        let admin_ids : gset Z :=
          list_to_set (user_id <$> List.filter is_administrator admins) in
        (Ret admin_ids,
         remember chat_id ((now + _admin_cache_ttl)%Q, admin_ids)
                  (observe [GetChatAdministrators chat_id] a1))
    | inr TelegramBadRequest =>
        (Ret ∅,
         remember chat_id ((now + _admin_cache_ttl)%Q, ∅)
                  (observe [GetChatAdministrators chat_id; Warning] a1))
    | inr e => (Raise e, observe [GetChatAdministrators chat_id] a1)
    end in
  match _admin_cache a !! chat_id with
  | Some (expiry, ids) => if Qlt_bool now expiry then (Ret ids, a1) else fetch
  | None => fetch
  end.

Definition ensure_admin (user chat_id : Z) (env : AdminEnv) (a : AdminService)
  : Result bool * AdminService :=
  if bool_decide (user ∈ owner_ids a) then (Ret true, a)
  else
    match _get_admin_ids chat_id env a with
    | (Raise e, a1) => (Raise e, a1)
    | (Ret admin_ids, a1) =>
        if bool_decide (user ∈ admin_ids) then (Ret true, a1)
        else if negb (bool_decide (admin_ids = ∅)) then (Ret false, a1)
        else
          (* fallback when the admin list is unavailable *)
          let a2 := observe [GetChatMember chat_id user] a1 in
          match chat_member_status env (served a1) chat_id user with
          | inl status =>
              (Ret (bool_decide (status ∈ ["creator"; "administrator"])), a2)
          | inr TelegramBadRequest => (Ret false, a2)
          | inr e => (Raise e, a2)
          end
    end.

(** [title or str(chat_id)]. *)
Definition display (chat_id : Z) (title : string) : string :=
  if bool_decide (title = EmptyString) then pretty chat_id else title.

(** [manageable_chats], over the answer of [storage.list_chats()]. *)
Fixpoint manageable_chats (user : Z) (chats : list (Z * string))
    (env : AdminEnv) (a : AdminService) : Result (list (Z * string)) * AdminService :=
  match chats with
  | [] => (Ret [], a)
  | (chat_id, title) :: rest =>
      match ensure_admin user chat_id env a with
      | (Raise e, a1) => (Raise e, a1)
      | (Ret ok, a1) =>
          match manageable_chats user rest env a1 with
          | (Raise e, a2) => (Raise e, a2)
          | (Ret result, a2) =>
              (Ret (if ok then (chat_id, display chat_id title) :: result else result), a2)
          end
      end
  end.

End Admin.

Export Admin.

(** ** Reports: the chats table, new cases and [handle_report]

    The report handler writes to tables and makes a transport call that
    the resolution engine never touches.  Its state extends the world of
    the engine by the [chats] table, the AUTOINCREMENT counter of
    [cases] and a journal of its own writes and calls. *)

Module Report.

(** A row of [chats].  The title is NULL in a row that
    [set_chat_settings] created; the settings column holds the JSON
    object of the chat's overrides, the empty object by default. *)
Record ChatRow := mkChatRow {
  chat_title : option string;
  chat_settings : gmap string value;
  chat_updated_at : Z
}.

(** The message a report replies to, and the report itself. *)
Record Flagged := mkFlagged {
  flagged_message_id : Z;
  flagged_from_user : option Z
}.

Record Incoming := mkIncoming {
  in_chat_id : Z;
  in_chat_title : option string;
  in_from_user : option Z;
  in_reply_to_message : option Flagged
}.

Inductive Action :=
| ChatUpserted (chat : Z) (title : string) (ts : Z)
| SettingsStored (chat : Z) (overrides : gmap string value) (ts : Z)
| CaseCreated (c : CaseRecord)
| Replied (chat reply_to : Z) (text : Text) (markup : Keyboard)
          (outcome : (Z * Z) + exn)
| PollAttached (case_id poll_chat poll_message : Z)
| TimerStarted (case_id closes : Z).

Record Desk := mkDesk {
  world : World;
  chats : gmap Z ChatRow;
  sqlite_sequence : Z;
  journal : list Action
}.

(** The outside world of a report: that of the engine, and what
    [Message.reply] returns at the [n]-th consultation (the chat id and
    message id of the message sent, or an exception). *)
Record ReportEnv := mkReportEnv {
  engine : Env;
  reply_result : nat → (Z * Z) + exn
}.

(** [IntegrityError] is sqlite's refusal of a second row for one
    (chat_id, message_id).  [Unmodelled] marks a run that reads the
    attributes of a merged settings object which are not all of their
    declared types: what Python does with them is outside this model. *)
Inductive Outcome (A : Type) :=
| Done (a : A)
| Failed (e : exn)
| IntegrityError
| Unmodelled.

Arguments Done {A} a.
Arguments Failed {A} e.
Arguments IntegrityError {A}.
Arguments Unmodelled {A}.

Definition R (A : Type) : Type := ReportEnv → Desk → Outcome A * Desk.

Definition done {A} (a : A) : R A := λ _ d, (Done a, d).

Definition and_then {A B} (m : R A) (k : A → R B) : R B :=
  λ env d, match m env d with
           | (Done a, d') => k a env d'
           | (Failed e, d') => (Failed e, d')
           | (IntegrityError, d') => (IntegrityError, d')
           | (Unmodelled, d') => (Unmodelled, d')
           end.

#[global] Instance R_ret : MRet R := @done.
#[global] Instance R_bind : MBind R := λ A B k m, and_then m k.

Definition with_world (w : World) (d : Desk) : Desk :=
  mkDesk w (chats d) (sqlite_sequence d) (journal d).

Definition with_chats (tbl : gmap Z ChatRow) (d : Desk) : Desk :=
  mkDesk (world d) tbl (sqlite_sequence d) (journal d).

Definition with_cases (tbl : gmap Z CaseRecord) (d : Desk) : Desk :=
  with_world (mkWorld tbl (votes (world d)) (blacklist (world d))
                      (trace (world d)) (tick (world d))) d.

Definition journaled (a : Action) (d : Desk) : Desk :=
  mkDesk (world d) (chats d) (sqlite_sequence d) (journal d ++ [a]).

(** An action of the engine, run on the engine's part of the state. *)
Definition lift_M {A} (m : M A) : R A :=
  λ env d, match m (engine env) (world d) with
           | (Ret a, w) => (Done a, with_world w d)
           | (Raise e, w) => (Failed e, with_world w d)
           end.

(** [INSERT INTO chats(chat_id, title, updated_at) ... ON CONFLICT(chat_id)
    DO UPDATE SET title = excluded.title, updated_at = excluded.updated_at]:
    the settings column of an existing row is kept. *)
Definition upserted (title : string) (ts : Z) (old : option ChatRow) : ChatRow :=
  match old with
  | Some row => mkChatRow (Some title) (chat_settings row) ts
  | None => mkChatRow (Some title) ∅ ts
  end.

Definition write_chat (chat : Z) (f : option ChatRow → ChatRow) (a : Action) : R unit :=
  λ _ d, (Done (), journaled a (with_chats (<[chat := f (chats d !! chat)]> (chats d)) d)).

Definition upsert_chat (chat : Z) (title : string) : R unit :=
  ts ← lift_M now;
  write_chat chat (upserted title ts) (ChatUpserted chat title ts).

(** [INSERT INTO chats(chat_id, settings, updated_at) ... ON CONFLICT(chat_id)
    DO UPDATE SET settings = excluded.settings, updated_at = excluded.updated_at]. *)
Definition with_settings (overrides : gmap string value) (ts : Z)
    (old : option ChatRow) : ChatRow :=
  match old with
  | Some row => mkChatRow (chat_title row) overrides ts
  | None => mkChatRow None overrides ts
  end.

Definition set_chat_settings (chat : Z) (overrides : gmap string value) : R unit :=
  ts ← lift_M now;
  write_chat chat (with_settings overrides ts) (SettingsStored chat overrides ts).

(** The overrides of a chat, the empty object for a chat without row. *)
Definition overrides_of (tbl : gmap Z ChatRow) (chat : Z) : gmap string value :=
  default ∅ (chat_settings <$> tbl !! chat).

Definition get_chat_settings (chat : Z) : R (option (gmap string value)) :=
  λ _ d, (Done (chat_settings <$> chats d !! chat), d).

Definition get_chat_title (chat : Z) : R (option string) :=
  λ _ d, (Done (chats d !! chat ≫= chat_title), d).

(** [SELECT * FROM cases WHERE chat_id = ? AND message_id = ?], first
    row; the UNIQUE constraint leaves at most one. *)
Definition case_of_message (tbl : gmap Z CaseRecord) (chat msg : Z) : option CaseRecord :=
  head (filter (λ c, chat_id c = chat ∧ message_id c = msg) (map_to_list tbl).*2).

Definition get_case_by_message (chat msg : Z) : R (option CaseRecord) :=
  λ _ d, (Done (case_of_message (cases (world d)) chat msg), d).

(** [SELECT COUNT(...) FROM cases WHERE chat_id = ? AND reporter_id = ?
    AND opened_at >= ?]. *)
Definition recent_reports (tbl : gmap Z CaseRecord) (chat reporter since : Z) : Z :=
  Z.of_nat (length (filter (λ c, chat_id c = chat ∧ reporter_id c = reporter
                                 ∧ since <= opened_at c)
                           (map_to_list tbl).*2)).

Definition count_recent_reports (chat reporter since : Z) : R Z :=
  λ _ d, (Done (recent_reports (cases (world d)) chat reporter since), d).

(** The largest row id of [cases], 0 for the empty table. *)
Definition max_rowid (tbl : gmap Z CaseRecord) : Z :=
  foldr Z.max 0 (map_to_list tbl).*1.

(** [INSERT INTO cases ...]: the row gets the next AUTOINCREMENT id, one
    more than every id the table has ever held; the UNIQUE constraint on
    (chat_id, message_id) refuses a second row for a message. *)
Definition insert_case (chat msg offender reporter opened closes : Z)
    (snapshot : gmap string value) (target : Z) : R CaseRecord :=
  λ _ d,
    if bool_decide (Exists (λ c, chat_id c = chat ∧ message_id c = msg)
                           (map_to_list (cases (world d))).*2)
    then (IntegrityError, d)
    else
      let case_id := 1 + Z.max (sqlite_sequence d) (max_rowid (cases (world d))) in
      let c := mkCase case_id chat msg offender reporter OPEN opened closes
                      None None snapshot target in
      (Done c,
       journaled (CaseCreated c)
         (mkDesk (world (with_cases (<[case_id := c]> (cases (world d))) d))
                 (chats d) case_id (journal d))).

Definition create_case (chat msg offender reporter closes : Z)
    (snapshot : gmap string value) (target : Z) : R CaseRecord :=
  opened ← lift_M now;
  insert_case chat msg offender reporter opened closes snapshot target.

Definition with_poll (poll_chat poll_message : Z) (c : CaseRecord) : CaseRecord :=
  mkCase (id c) (chat_id c) (message_id c) (offender_id c) (reporter_id c)
         (status c) (opened_at c) (closes_at c)
         (Some poll_chat) (Some poll_message)
         (config_snapshot c) (participant_target c).

(** [UPDATE cases SET poll_chat_id = ?, poll_message_id = ? WHERE id = ?]. *)
Definition update_case_poll (case_id poll_chat poll_message : Z) : R unit :=
  λ _ d, (Done (),
          journaled (PollAttached case_id poll_chat poll_message)
            (with_cases (alter (with_poll poll_chat poll_message) case_id
                               (cases (world d))) d)).

(** [flagged_message.reply(text, reply_markup=...)]. *)
Definition reply (chat reply_to : Z) (text : Text) (markup : Keyboard) : R (Z * Z) :=
  λ env d,
    let o := reply_result env (tick (world d)) in
    let d' := journaled (Replied chat reply_to text markup o)
                        (with_world (next_tick (world d)) d) in
    match o with
    | inl sent => (Done sent, d')
    | inr e => (Failed e, d')
    end.

(** [asyncio.create_task(self._schedule_expiry_check(case_id, closes_at))]:
    the timer is started; it runs later, as [_schedule_expiry_check]. *)
Definition create_task (case_id closes : Z) : R unit :=
  λ _ d, (Done (), journaled (TimerStarted case_id closes) d).

(** [load_settings]: the defaults with the chat's overrides written
    over them, as the attribute dictionary of the unvalidated object. *)
Definition load_settings (defaults : ChatSettings) (chat : Z) : R (gmap string value) :=
  overrides ← get_chat_settings chat;
  mret (merge defaults overrides).

Definition attr_float (d : gmap string value) (k : string) : option Q :=
  match d !! k with Some (VFloat q) => Some q | _ => None end.

Definition attr_int (d : gmap string value) (k : string) : option Z :=
  match d !! k with Some (VInt n) => Some n | _ => None end.

Definition attr_bool (d : gmap string value) (k : string) : option bool :=
  match d !! k with Some (VBool b) => Some b | _ => None end.

Definition attr_str (d : gmap string value) (k : string) : option string :=
  match d !! k with Some (VStr s) => Some s | _ => None end.

(** The typed view of an attribute dictionary: defined when the
    dictionary has the twelve declared fields and nothing else, each
    with a value of its declared type (in or out of its range). *)
Definition attributes (d : gmap string value) : option ChatSettings :=
  r ← attr_float d "min_participation_ratio";
  c ← attr_int d "min_participation_count";
  a ← attr_float d "approval_ratio";
  q ← attr_str d "quorum_strategy";
  act ← attr_str d "action_on_confirm";
  m ← attr_int d "mute_duration_sec";
  bl ← attr_bool d "blacklist_enabled";
  t ← attr_int d "vote_timeout_sec";
  ar ← attr_bool d "allow_vote_retract";
  mx ← attr_int d "max_cases_per_user_hour";
  ac ← attr_bool d "auto_close_on_deleted_msg";
  ag ← attr_int d "min_account_age_hours";
  if bool_decide (size d = 12%nat)
  then Some (mkSettings r c a q act m bl t ar mx ac ag)
  else None.

Definition typed (d : gmap string value) : R ChatSettings :=
  λ _ desk, match attributes d with
            | Some s => (Done s, desk)
            | None => (Unmodelled, desk)
            end.

(** The text for a message whose case is closed. *)
Definition closed_text (c : CaseRecord) : string :=
  let status_text :=
    match status c with
    | CONFIRMED => "已被判定为 Spam"
    | REJECTED => "已被判定为非 Spam"
    | EXPIRED => "已超时"
    | OPEN => "已处理"
    end in
  "该消息已有案件 #" +:+ pretty (id c) +:+ "（" +:+ status_text +:+ "），"
  +:+ "无需再次发起。".

(** The last part of [handle_report]: the case is created, its ballot
    posted and its timer started. *)
Definition start_vote (settings : ChatSettings) (chat reporter msg offender now : Z)
  : R string :=
  chat_member_count ← lift_M (_fetch_member_count chat);
  let participant_target := participant_target_for settings chat_member_count in
  let closes := now + vote_timeout_sec settings in
  case ← create_case chat msg offender reporter closes
           (model_dump settings) participant_target;
  let poll_text := _format_poll_text case settings 0 0 0 in
  sent ← reply chat msg poll_text
           (_build_keyboard (id case) (allow_vote_retract settings));
  update_case_poll (id case) sent.1 sent.2 ;;
  create_task (id case) closes ;;
  mret "已创建投票，邀请成员判断是否为 Spam 消息。".

(** [handle_report] from the point where reporter, flagged message and
    offender are known. *)
Definition open_case (defaults : ChatSettings) (chat : Z) (title : option string)
    (reporter msg offender : Z) : R string :=
  upsert_chat chat (default EmptyString title) ;;
  merged ← load_settings defaults chat;
  now ← lift_M now;
  let since := now - 3600 in
  recent_count ← count_recent_reports chat reporter since;
  settings ← typed merged;
  if recent_count >=? max_cases_per_user_hour settings
  then mret "举报频率过高，请稍后再试。"
  else
    existing_case ← get_case_by_message chat msg;
    match existing_case with
    | Some c =>
        if bool_decide (status c = OPEN)
        then mret "该消息已经在投票中，请直接参与投票。"
        else mret (closed_text c)
    | None => start_vote settings chat reporter msg offender now
    end.

Definition handle_report (defaults : ChatSettings) (message : Incoming) : R string :=
  match in_reply_to_message message with
  | None => mret "请回复需要举报的消息并发送 /spam。"
  | Some flagged_message =>
      match in_from_user message with
      | None => mret "无法识别举报者。"
      | Some reporter =>
          match flagged_from_user flagged_message with
          | None => mret "无法识别消息发送者，无法创建案例。"
          | Some offender =>
              open_case defaults (in_chat_id message) (in_chat_title message)
                        reporter (flagged_message_id flagged_message) offender
          end
      end
  end.

(** The [UNIQUE(chat_id, message_id)] constraint of [cases]. *)
Definition unique_messages (tbl : gmap Z CaseRecord) : Prop :=
  ∀ k1 k2 c1 c2, tbl !! k1 = Some c1 → tbl !! k2 = Some c2 →
                 chat_id c1 = chat_id c2 → message_id c1 = message_id c2 → k1 = k2.


End Report.

Export Report.

(** * Properties *)

(** ** Settings *)

Lemma merge_override_wins (self : ChatSettings) (overrides : gmap string value) k v :
  overrides !! k = Some v → merge self (Some overrides) !! k = Some v.
Proof.
  intros H. unfold merge, model_copy. simpl.
  by apply lookup_union_Some_l.
Qed.

(** C2. [merge] copies the defaults and writes the overrides over them
    without checking anything: the defaults respect every declared bound,
    yet merging the override [approval_ratio = 5.0] yields a snapshot
    whose approval ratio is 5, outside [0, 1]; the constructor refuses
    that very snapshot. *)
Theorem merge_does_not_validate :
  let overrides : gmap string value := {[ "approval_ratio" := VFloat 5 ]} in
  let merged := merge ChatSettings_default (Some overrides) in
  bounds_ok (model_dump ChatSettings_default) = true
  ∧ merged !! "approval_ratio" = Some (VFloat 5)
  ∧ bounds_ok merged = false
  ∧ ChatSettings_init merged = None.
Proof. vm_compute. by repeat split. Qed.

(** ** Quorum *)

Lemma geb_ge (a b : Z) : (a >=? b) = true ↔ a >= b.
Proof. rewrite Z.geb_le. lia. Qed.

(** C5. The participation predicate is the strategy table: both
    thresholds under [ratio_and_count], the participant target alone
    under [ratio_only], the minimum count alone under [count_only]. *)
Theorem participation_met_table (total target : Z) (s : ChatSettings) :
  (_participation_met total (with_quorum_strategy "ratio_and_count" s) target = true
     ↔ total >= target ∧ total >= min_participation_count s)
  ∧ (_participation_met total (with_quorum_strategy "ratio_only" s) target = true
     ↔ total >= target)
  ∧ (_participation_met total (with_quorum_strategy "count_only" s) target = true
     ↔ total >= min_participation_count s).
Proof.
  unfold _participation_met. simpl. split; [|split].
  - rewrite andb_true_iff, !geb_ge. done.
  - apply geb_ge.
  - apply geb_ge.
Qed.

Lemma participant_target_ge_count (s : ChatSettings) (chat_member_count : Z) :
  participant_target_for s chat_member_count >= min_participation_count s.
Proof. unfold participant_target_for. lia. Qed.

(** C10. The participant target computed at case creation is at least
    the minimum count, so with that target [ratio_and_count] and
    [ratio_only] decide participation alike for every total. *)
Theorem ratio_and_count_is_ratio_only (s : ChatSettings) (chat_member_count total : Z) :
  let target := participant_target_for s chat_member_count in
  target >= min_participation_count s
  ∧ _participation_met total (with_quorum_strategy "ratio_and_count" s) target
    = _participation_met total (with_quorum_strategy "ratio_only" s) target.
Proof.
  intros target. pose proof (participant_target_ge_count s chat_member_count) as H.
  split; [exact H|].
  unfold _participation_met. simpl. fold target.
  destruct (total >=? target) eqn:E; simpl; [|done].
  apply geb_ge. apply geb_ge in E. unfold target in *. lia.
Qed.

(** ** The votes table *)





Section upsert.
Context (c v : Z) (d : VoteDecision) (t : Z).









End upsert.




(** ** The handler monad *)

Lemma run_bind {A B} (m : M A) (k : A → M B) env w :
  (m ≫= k) env w =
  match m env w with
  | (Ret a, w') => k a env w'
  | (Raise e, w') => (Raise e, w')
  end.
Proof. reflexivity. Qed.

Lemma replay_app d1 d2 w : replay (d1 ++ d2) w = replay d2 (replay d1 w).
Proof.
  revert w. induction d1 as [|e d1 IH]; intros w; [done|].
  destruct e; simpl; apply IH.
Qed.

Lemma same_tables_apply wr w1 w2 :
  same_tables w1 w2 → same_tables (apply_write wr w1) (apply_write wr w2).
Proof.
  intros (Hc & Hv & Hb). destruct wr; repeat split; simpl; congruence.
Qed.

Lemma same_tables_replay d w1 w2 :
  same_tables w1 w2 → same_tables (replay d w1) (replay d w2).
Proof.
  revert w1 w2. induction d as [|e d IH]; intros w1 w2 H; [done|].
  destruct e; simpl; auto using same_tables_apply.
Qed.

Lemma same_tables_refl w : same_tables w w.
Proof. by repeat split. Qed.

Lemma same_tables_trans w1 w2 w3 :
  same_tables w1 w2 → same_tables w2 w3 → same_tables w1 w3.
Proof. intros (? & ? & ?) (? & ? & ?). repeat split; congruence. Qed.

Lemma evolves_refl P w : evolves P w w.
Proof.
  exists []. rewrite app_nil_r.
  split; [done|]. split; [constructor|apply same_tables_refl].
Qed.

Lemma evolves_trans P w1 w2 w3 :
  evolves P w1 w2 → evolves P w2 w3 → evolves P w1 w3.
Proof.
  intros (d1 & Ht1 & Hp1 & Hs1) (d2 & Ht2 & Hp2 & Hs2).
  exists (d1 ++ d2). split; [|split].
  - by rewrite Ht2, Ht1, (assoc_L (++)).
  - by apply Forall_app.
  - rewrite replay_app. eapply same_tables_trans; [exact Hs2|].
    by apply same_tables_replay.
Qed.

Lemma evolves_weaken (P Q : Event → Prop) w w' :
  (∀ e, P e → Q e) → evolves P w w' → evolves Q w w'.
Proof.
  intros HPQ (d & Ht & Hp & Hs). exists d. split; [done|]. split; [|done].
  eapply Forall_impl; eauto.
Qed.

Lemma evolves_tick P w : evolves P w (next_tick w).
Proof.
  exists []. simpl. rewrite app_nil_r.
  split; [done|]. split; [constructor|by repeat split].
Qed.

Lemma evolves_emit (P : Event → Prop) e w :
  P e → (∀ wr, e ≠ Committed wr) → evolves P w (emit e w).
Proof.
  intros HP Hne. exists [e]. split; [done|]. split; [by repeat constructor|].
  destruct e as [c o|wr|n|l]; simpl; try by repeat split.
  by destruct (Hne wr).
Qed.

Lemma evolves_commit (P : Event → Prop) wr w :
  P (Committed wr) → evolves P w (emit (Committed wr) (apply_write wr w)).
Proof.
  intros HP. exists [Committed wr]. split; [|split].
  - by destruct wr.
  - by repeat constructor.
  - simpl. by destruct wr.
Qed.

(** *** Rules for [emits] *)

Section emits_rules.
Context (P : Event → Prop).

Lemma emits_ret {A} (a : A) : emits P (mret a : M A).
Proof. intros env w. apply evolves_refl. Qed.

Lemma emits_raise {A} e : emits P (raise e : M A).
Proof. intros env w. apply evolves_refl. Qed.

Lemma emits_bind {A B} (m : M A) (k : A → M B) :
  emits P m → (∀ a, emits P (k a)) → emits P (m ≫= k).
Proof.
  intros Hm Hk env w. rewrite run_bind. specialize (Hm env w).
  destruct (m env w) as [[a|e] w']; simpl in *; [|done].
  eapply evolves_trans; [exact Hm|apply Hk].
Qed.

Lemma emits_try {A} (body handler : M A) :
  emits P body → emits P handler → emits P (try_except_bad_request body handler).
Proof.
  intros Hb Hh env w. unfold try_except_bad_request. specialize (Hb env w).
  destruct (body env w) as [[a|[]] w']; simpl in *; try done.
  eapply evolves_trans; [exact Hb|apply Hh].
Qed.

Lemma emits_for_each {A} (l : list A) (body : A → M unit) :
  (∀ x, x ∈ l → emits P (body x)) → emits P (for_each l body).
Proof.
  induction l as [|x l IH]; intros H; simpl; [apply emits_ret|].
  apply emits_bind; [apply H; left|]. intros _. apply IH.
  intros y Hy. apply H. by right.
Qed.

Lemma emits_now : emits P now.
Proof. intros env w. apply evolves_tick. Qed.

Lemma emits_call c : (∀ o, P (Called c o)) → emits P (call c).
Proof.
  intros H env w. unfold call.
  assert (evolves P w (next_tick (emit (Called c (telegram env (tick w) c)) w))).
  { eapply evolves_trans; [apply evolves_emit; [apply H|done]|apply evolves_tick]. }
  by destruct (telegram env (tick w) c).
Qed.

Lemma emits_sleep n : P (Slept n) → emits P (sleep n).
Proof. intros H env w. by apply evolves_emit. Qed.

Lemma emits_log l : P (Logged l) → emits P (log l).
Proof. intros H env w. by apply evolves_emit. Qed.

Lemma emits_commit wr : P (Committed wr) → emits P (commit wr).
Proof. intros H env w. by apply evolves_commit. Qed.

Lemma emits_get_case k : emits P (get_case k).
Proof. intros env w. apply evolves_refl. Qed.

Lemma emits_get_votes k : emits P (get_votes k).
Proof. intros env w. apply evolves_refl. Qed.

Lemma emits_list_open_cases : emits P list_open_cases.
Proof. intros env w. apply evolves_refl. Qed.

Lemma emits_py_int s : emits P (py_int s).
Proof. intros env w. apply evolves_refl. Qed.

Lemma emits_settings_of d : emits P (settings_of d).
Proof. unfold settings_of. destruct (ChatSettings_init d); [apply emits_ret|apply emits_raise]. Qed.

End emits_rules.

Ltac emits_step :=
  match goal with
  | |- emits _ (ret _) => apply emits_ret
  | |- emits _ (mret _) => apply emits_ret
  | |- emits _ (raise _) => apply emits_raise
  | |- emits _ (_ ≫= _) => apply emits_bind; [|intros ?]
  | |- emits _ (try_except_bad_request _ _) => apply emits_try
  | |- emits _ now => apply emits_now
  | |- emits _ (call _) => apply emits_call; intros ?
  | |- emits _ (sleep _) => apply emits_sleep
  | |- emits _ (log _) => apply emits_log
  | |- emits _ (commit _) => apply emits_commit
  | |- emits _ (get_case _) => apply emits_get_case
  | |- emits _ (get_votes _) => apply emits_get_votes
  | |- emits _ list_open_cases => apply emits_list_open_cases
  | |- emits _ (py_int _) => apply emits_py_int
  | |- emits _ (settings_of _) => apply emits_settings_of
  | |- emits _ (if ?b then _ else _) => destruct b eqn:?
  | |- emits _ (match ?x with _ => _ end) => destruct x eqn:?
  end.

Ltac emits_leaf :=
  first
    [ assumption
    | match goal with
      | H : ∀ e : Event, _ |- _ => apply H; repeat split; reflexivity
      end
    | done ].

Ltac emits_tac := repeat emits_step; try emits_leaf.

Lemma emits_enforce_actions (P : Event → Prop) c s :
  (∀ e, quiet e → P e) → emits P (_enforce_actions c s).
Proof.
  intros H.
  unfold _enforce_actions, _ban_user, _kick_user, _mute_user, blacklist_add.
  emits_tac.
Qed.

Lemma emits_close_case (P : Event → Prop) c s (expired : bool) :
  P (Committed (SetCaseStatus (id c) (if expired then EXPIRED else REJECTED))) →
  (∀ e, harmless e → P e) → emits P (_close_case c s expired).
Proof.
  intros Hst H. unfold _close_case, set_case_status. cbv zeta. emits_tac.
Qed.

Lemma emits_confirm_case (P : Event → Prop) c s :
  P (Committed (SetCaseStatus (id c) CONFIRMED)) →
  (∀ e, quiet e → P e) → emits P (_confirm_case c s).
Proof.
  intros Hst H. unfold _confirm_case, set_case_status. cbv zeta.
  repeat emits_step; try emits_leaf.
  by apply emits_enforce_actions.
Qed.

Lemma emits_maybe_resolve (P : Event → Prop) c s spam_votes not_spam_votes total :
  P (Committed (SetCaseStatus (id c) EXPIRED)) →
  P (Committed (SetCaseStatus (id c) CONFIRMED)) →
  (∀ e, quiet e → P e) → emits P (_maybe_resolve c s spam_votes not_spam_votes total).
Proof.
  intros He Hc H. unfold _maybe_resolve. cbv zeta.
  repeat emits_step; try emits_leaf.
  - apply emits_close_case; [done|]. intros e [Hq _]. by apply H.
  - by apply emits_confirm_case.
Qed.

Lemma emits_refresh_poll (P : Event → Prop) c s :
  P (Committed (SetCaseStatus (id c) EXPIRED)) →
  P (Committed (SetCaseStatus (id c) CONFIRMED)) →
  (∀ e, quiet e → P e) → emits P (_refresh_poll c s).
Proof.
  intros He Hc H. unfold _refresh_poll. cbv zeta.
  apply emits_bind; [apply emits_get_votes|]. intros vs.
  apply emits_bind; [by apply emits_maybe_resolve|]. intros c'.
  emits_tac.
Qed.

Lemma emits_vote_recorded (P : Event → Prop) b c s :
  P (Committed (SetCaseStatus (id c) EXPIRED)) →
  P (Committed (SetCaseStatus (id c) CONFIRMED)) →
  (∀ e, quiet e → P e) → emits P (vote_recorded b c s).
Proof.
  intros He Hc H. unfold vote_recorded.
  destruct b; simpl; [|emits_tac].
  apply emits_bind; [emits_tac|]. intros _. by apply emits_refresh_poll.
Qed.

Lemma emits_vote_on_open_case (P : Event → Prop) c tok voter :
  P (Committed (SetCaseStatus (id c) EXPIRED)) →
  P (Committed (SetCaseStatus (id c) CONFIRMED)) →
  (∀ e, status_commit e = false → P e) → emits P (vote_on_open_case c tok voter).
Proof.
  intros He Hc H.
  assert (∀ e, quiet e → P e) as Hq by (intros e [? _]; by apply H).
  unfold vote_on_open_case, retract_vote, record_vote. cbv zeta.
  apply emits_bind; [apply emits_settings_of|]. intros s.
  destruct (String.eqb tok "retract").
  - destruct (negb (allow_vote_retract s)); [emits_tac|].
    apply emits_bind; [emits_tac|]. intros _. by apply emits_vote_recorded.
  - apply emits_bind; [emits_tac|]. intros _. by apply emits_vote_recorded.
Qed.

(** ** What the recorded writes do to the tables *)

Lemma replay_cases_same delta w :
  Forall (λ ev, status_commit ev = false) delta → cases (replay delta w) = cases w.
Proof.
  revert w. induction delta as [|e d IH]; intros w H; [done|].
  apply Forall_cons in H as [He Hd].
  destruct e as [| [] | |]; simpl in *; try done; by rewrite IH.
Qed.


Lemma replay_case_untouched k delta w :
  Forall (λ ev, ∀ st, ev ≠ Committed (SetCaseStatus k st)) delta →
  cases (replay delta w) !! k = cases w !! k.
Proof.
  revert w. induction delta as [|e d IH]; intros w H; [done|].
  apply Forall_cons in H as [He Hd].
  destruct e as [| [k' st| | |] | |]; simpl in *; try by rewrite IH.
  rewrite IH by done. simpl. apply lookup_alter_ne. intros ->. by eapply He.
Qed.


Lemma replay_resolves m0 st delta w :
  Forall (resolves m0 st) delta →
  (∀ k c, m0 !! k = Some c →
     ∃ c', cases w !! k = Some c'
           ∧ (status c' = status c ∨ (status c = OPEN ∧ status c' = st))) →
  ∀ k c, m0 !! k = Some c →
    ∃ c', cases (replay delta w) !! k = Some c'
          ∧ (status c' = status c ∨ (status c = OPEN ∧ status c' = st)).
Proof.
  revert w. induction delta as [|e d IH]; intros w H Hinv; [done|].
  apply Forall_cons in H as [He Hd].
  destruct e as [| [k' st'| | |] | |]; simpl in *; try by apply IH.
  apply IH; [done|]. simpl. intros k c Hk.
  destruct (He k' st' eq_refl) as (-> & c1 & Hc1 & Hopen).
  destruct (Hinv k c Hk) as (c' & Hc' & Hst).
  rewrite lookup_alter. case_decide as Hkk.
  - subst k'. rewrite Hc'. simpl. eexists; split; [done|]. simpl.
    right. split; [congruence|done].
  - eauto.
Qed.

Lemma evolves_monotone st w w' :
  terminal st = true → evolves (resolves (cases w) st) w w' →
  monotone (cases w) (cases w').
Proof.
  intros Hst (delta & _ & Hall & Hc & _). rewrite Hc.
  intros k c Hk.
  destruct (replay_resolves (cases w) st delta w Hall) with (k := k) (c := c)
    as (c' & Hc' & Hs); [by eauto|done|].
  exists c'. split; [done|]. destruct Hs as [?|[? ->]]; [by left|by right].
Qed.




Lemma evolves_cases_same w w' :
  evolves (λ ev, status_commit ev = false) w w' → cases w' = cases w.
Proof. intros (delta & _ & Hall & Hc & _). rewrite Hc. by apply replay_cases_same. Qed.

(** ** The vote handler *)

Lemma evolves_bind (P : Event → Prop) {A B} (m : M A) (k : A → M B) env w :
  evolves P w (m env w).2 →
  (∀ a, emits P (k a)) →
  evolves P w ((m ≫= k) env w).2.
Proof.
  intros Hm Hk. rewrite run_bind.
  destruct (m env w) as [[a|e] w1]; simpl in *; [|done].
  eapply evolves_trans; [exact Hm|apply Hk].
Qed.

Lemma harmless_answer text alert o : harmless (Called (answer text alert) o).
Proof. by repeat split. Qed.

(** A callback that names an open case of the store runs the vote on
    it. *)
Lemma handle_vote_callback_open data voter env w p ks tok k c :
  split_colon (default "" data) = [p; "vote"; ks; tok] →
  int_of_str env ks = Some k →
  cases w !! k = Some c →
  status c = OPEN →
  handle_vote_callback data voter env w = vote_on_open_case c tok voter env w.
Proof.
  intros Hsplit Hint Hc Hopen. unfold handle_vote_callback. cbv zeta.
  rewrite Hsplit. simpl. rewrite run_bind. unfold py_int at 1. rewrite Hint.
  rewrite run_bind. unfold get_case at 1. rewrite Hc.
  rewrite Hopen. by rewrite bool_decide_eq_true_2.
Qed.

(** Any other callback is answered and nothing else happens. *)
Lemma handle_vote_callback_inv data voter env w :
  (∃ p ks tok k c,
      split_colon (default "" data) = [p; "vote"; ks; tok]
      ∧ int_of_str env ks = Some k
      ∧ cases w !! k = Some c
      ∧ status c = OPEN)
  ∨ evolves harmless w (handle_vote_callback data voter env w).2.
Proof.
  assert (∀ text alert, evolves harmless w (call (answer text alert) env w).2) as Hans.
  { intros. apply emits_call. intros o. apply harmless_answer. }
  unfold handle_vote_callback. cbv zeta.
  destruct (length (split_colon (default "" data)) <? 4)%nat; [by right|].
  destruct (split_colon (default "" data)) as [|p [|a [|ks [|tok [|]]]]] eqn:Hsplit;
    try (right; apply evolves_refl).
  destruct (String.eqb a "vote") eqn:Ha; simpl; [|by right].
  apply String.eqb_eq in Ha as ->.
  rewrite run_bind. unfold py_int at 1.
  destruct (int_of_str env ks) as [k|] eqn:Hint; [|by right].
  rewrite run_bind. unfold get_case at 1.
  destruct (cases w !! k) as [c|] eqn:Hc; [|by right].
  destruct (decide (status c = OPEN)) as [Hopen|Hclosed].
  - left. by exists p, ks, tok, k, c.
  - right. rewrite bool_decide_eq_false_2 by done. simpl. apply Hans.
Qed.

(** ** Resolution writes one terminal status on an open row *)

Lemma resolves_commit m0 st k c :
  m0 !! k = Some c → status c = OPEN →
  resolves m0 st (Committed (SetCaseStatus k st)).
Proof. intros Hk Ho k' st' [= <- <-]. eauto. Qed.

Lemma resolves_other m0 st e : status_commit e = false → resolves m0 st e.
Proof. intros H k st' ->. done. Qed.

Lemma maybe_resolve_resolves m0 c c0 s spam_votes not_spam_votes total env w :
  m0 !! id c = Some c0 → status c0 = OPEN →
  ∃ st, (st = EXPIRED ∨ st = CONFIRMED)
        ∧ evolves (resolves m0 st) w
            (_maybe_resolve c s spam_votes not_spam_votes total env w).2.
Proof.
  intros Hk Ho. unfold _maybe_resolve.
  destruct (negb (bool_decide (status c = OPEN))).
  { exists EXPIRED. split; [by left|apply evolves_refl]. }
  rewrite run_bind. unfold now at 1.
  destruct (clock env (tick w) >=? closes_at c).
  { exists EXPIRED. split; [by left|].
    eapply evolves_trans; [apply evolves_tick|].
    apply emits_close_case; [by eapply resolves_commit|].
    intros e [[H _] _]. by apply resolves_other. }
  destruct (total =? 0).
  { exists EXPIRED. split; [by left|apply evolves_tick]. }
  cbv zeta.
  destruct (_ && _).
  - exists CONFIRMED. split; [by right|].
    eapply evolves_trans; [apply evolves_tick|].
    apply emits_confirm_case; [by eapply resolves_commit|].
    intros e [H _]. by apply resolves_other.
  - exists EXPIRED. split; [by left|apply evolves_tick].
Qed.

Lemma refresh_poll_resolves m0 c c0 s env w :
  m0 !! id c = Some c0 → status c0 = OPEN →
  ∃ st, (st = EXPIRED ∨ st = CONFIRMED)
        ∧ evolves (resolves m0 st) w (_refresh_poll c s env w).2.
Proof.
  intros Hk Ho. unfold _refresh_poll. rewrite run_bind. unfold get_votes at 1.
  cbv zeta.
  match goal with
  | |- context [ _maybe_resolve c s ?a ?b ?t ] =>
      destruct (maybe_resolve_resolves m0 c c0 s a b t env w Hk Ho)
        as (st & Hst & Hev)
  end.
  exists st. split; [done|].
  apply evolves_bind; [exact Hev|]. intros c'.
  emits_tac; by apply resolves_other.
Qed.

Lemma resolves_after m0 {A} (pre : M A) (k : A → M unit) env w :
  emits (λ e, status_commit e = false) pre →
  (∀ a w1, ∃ st, (st = EXPIRED ∨ st = CONFIRMED)
                 ∧ evolves (resolves m0 st) w1 (k a env w1).2) →
  ∃ st, (st = EXPIRED ∨ st = CONFIRMED)
        ∧ evolves (resolves m0 st) w ((pre ≫= k) env w).2.
Proof.
  intros Hpre Hk. rewrite run_bind. specialize (Hpre env w).
  destruct (pre env w) as [[a|e] w1]; simpl in *.
  - destruct (Hk a w1) as (st & Hst & Hev). exists st. split; [done|].
    eapply evolves_trans; [|exact Hev].
    eapply evolves_weaken; [|exact Hpre]. apply resolves_other.
  - exists EXPIRED. split; [by left|].
    eapply evolves_weaken; [|exact Hpre]. apply resolves_other.
Qed.

Lemma vote_recorded_resolves m0 c c0 s env w :
  m0 !! id c = Some c0 → status c0 = OPEN →
  ∃ st, (st = EXPIRED ∨ st = CONFIRMED)
        ∧ evolves (resolves m0 st) w (vote_recorded true c s env w).2.
Proof.
  intros Hk Ho. unfold vote_recorded. simpl.
  apply resolves_after; [emits_tac|].
  intros _ w1. by eapply refresh_poll_resolves.
Qed.

Lemma vote_on_open_case_resolves m0 c c0 tok voter env w :
  m0 !! id c = Some c0 → status c0 = OPEN →
  ∃ st, (st = EXPIRED ∨ st = CONFIRMED)
        ∧ evolves (resolves m0 st) w (vote_on_open_case c tok voter env w).2.
Proof.
  intros Hk Ho. unfold vote_on_open_case.
  apply resolves_after; [apply emits_settings_of|]. intros s w1.
  destruct (String.eqb tok "retract").
  - destruct (negb (allow_vote_retract s)).
    + exists EXPIRED. split; [by left|].
      apply emits_call. intros o. by apply resolves_other.
    + apply resolves_after; [unfold retract_vote; emits_tac|].
      intros _ w2. by eapply vote_recorded_resolves.
  - cbv zeta. apply resolves_after; [unfold record_vote; emits_tac|].
    intros _ w2. by eapply vote_recorded_resolves.
Qed.

Lemma handle_vote_callback_resolves data voter env w :
  keyed (cases w) →
  ∃ st, (st = EXPIRED ∨ st = CONFIRMED)
        ∧ evolves (resolves (cases w) st) w (handle_vote_callback data voter env w).2.
Proof.
  intros Hkeyed.
  destruct (handle_vote_callback_inv data voter env w)
    as [(p & ks & tok & k & c & Hsplit & Hint & Hc & Ho)|Hquiet].
  - rewrite (handle_vote_callback_open data voter env w p ks tok k c) by done.
    apply (vote_on_open_case_resolves _ c c); [|done].
    by rewrite (Hkeyed k c Hc).
  - exists EXPIRED. split; [by left|].
    eapply evolves_weaken; [|exact Hquiet].
    intros e [[H _] _]. by apply resolves_other.
Qed.

(** ** The timer and the sweep *)

Lemma close_case_expires m0 c c0 s :
  m0 !! id c = Some c0 → status c0 = OPEN →
  emits (λ e, resolves m0 EXPIRED e ∧ enforcement e = false) (_close_case c s true).
Proof.
  intros Hk Ho. apply emits_close_case.
  - split; [by eapply resolves_commit|done].
  - intros e [[H _] He]. split; [by apply resolves_other|done].
Qed.

Lemma schedule_expiry_check_expires case_id closes env w :
  keyed (cases w) →
  evolves (λ e, resolves (cases w) EXPIRED e ∧ enforcement e = false) w
    (_schedule_expiry_check case_id closes env w).2.
Proof.
  intros Hkeyed. unfold _schedule_expiry_check.
  rewrite run_bind. unfold now at 1. cbv zeta.
  rewrite run_bind. unfold sleep at 1.
  rewrite run_bind. unfold get_case at 1. simpl.
  match goal with
  | |- evolves _ _ (?rest env ?w2).2 =>
      assert (evolves (λ e, resolves (cases w) EXPIRED e ∧ enforcement e = false) w w2)
        as Hpre;
      [|assert (emits (λ e, resolves (cases w) EXPIRED e ∧ enforcement e = false) rest)
          as Hrest; [|eapply evolves_trans; [exact Hpre|apply Hrest]]]
  end.
  - eapply evolves_trans; [apply evolves_tick|]. apply evolves_emit; [|done].
    split; [by apply resolves_other|done].
  - destruct (cases w !! case_id) as [c|] eqn:Hc; [|apply emits_ret].
    destruct (decide (status c = OPEN)) as [Ho|Hn].
    + rewrite bool_decide_eq_true_2 by done. simpl.
      apply emits_bind; [apply emits_settings_of|]. intros s.
      apply emits_bind; [|intros ?; apply emits_ret].
      apply (close_case_expires _ c c); [|done]. by rewrite (Hkeyed _ _ Hc).
    + rewrite bool_decide_eq_false_2 by done. apply emits_ret.
Qed.

Lemma expire_overdue_cases_expires env w :
  keyed (cases w) →
  evolves (λ e, resolves (cases w) EXPIRED e ∧ enforcement e = false) w
    (expire_overdue_cases env w).2.
Proof.
  intros Hkeyed. unfold expire_overdue_cases.
  rewrite run_bind. unfold now at 1.
  rewrite run_bind. unfold list_open_cases at 1. simpl.
  eapply evolves_trans; [apply evolves_tick|].
  apply emits_for_each. intros c Hin.
  apply list_elem_of_filter in Hin as [Ho Hin].
  apply list_elem_of_fmap in Hin as ([k c'] & -> & Hin). simpl in *.
  apply elem_of_map_to_list in Hin.
  destruct (_ >=? _); [|apply emits_ret].
  apply emits_bind; [apply emits_settings_of|]. intros s.
  apply emits_bind; [|intros ?; apply emits_ret].
  apply (close_case_expires _ c' c'); [|done]. by rewrite (Hkeyed _ _ Hin).
Qed.

Lemma run_resolves e env w :
  keyed (cases w) →
  ∃ st, (st = EXPIRED ∨ st = CONFIRMED)
        ∧ evolves (resolves (cases w) st) w (run e env w).2.
Proof.
  intros Hkeyed. destruct e as [data voter|k t|]; simpl.
  - by apply handle_vote_callback_resolves.
  - exists EXPIRED. split; [by left|].
    eapply evolves_weaken; [|by apply schedule_expiry_check_expires].
    by intros e [H _].
  - exists EXPIRED. split; [by left|].
    eapply evolves_weaken; [|by apply expire_overdue_cases_expires].
    by intros e [H _].
Qed.

(** ** Closing and confirming *)

Lemma evolves_trace P w w' :
  evolves P w w' → ∃ delta, trace w' = trace w ++ delta ∧ Forall P delta.
Proof. intros (delta & Ht & Hp & _). eauto. Qed.

(** After [_close_case] the row carries the new status, the trace starts
    with the commit, and what follows is harmless. *)
Lemma close_case_spec c s (expired : bool) env w :
  let st := if expired then EXPIRED else REJECTED in
  let r := _close_case c s expired env w in
  (∀ c', r.1 = Ret c' → c' = with_status st c)
  ∧ cases r.2 = alter (with_status st) (id c) (cases w)
  ∧ ∃ delta, trace r.2 = trace w ++ Committed (SetCaseStatus (id c) st) :: delta
             ∧ Forall harmless delta.
Proof.
  intros st r. subst r.
  destruct (_close_case c s expired env w) as [res w'] eqn:E. simpl.
  unfold _close_case in E. cbv zeta in E. fold st in E.
  rewrite run_bind in E. unfold set_case_status at 1, commit at 1 in E.
  set (w0 := emit _ _) in E.
  rewrite run_bind in E.
  match type of E with
  | context [ (if ?b then ?m1 else ?m2) env w0 ] =>
      assert (emits harmless (if b then m1 else m2)) as Hrest by emits_tac;
      specialize (Hrest env w0);
      destruct ((if b then m1 else m2) env w0) as [[[]|e] w1]
  end; simpl in *.
  all: injection E as <- <-.
  all: destruct (evolves_trace _ _ _ Hrest) as (delta & Ht & Hd).
  all: split; [intros c'; by intros [= <-]|].
  all: split; [rewrite (evolves_cases_same w0 w1); [done|];
               eapply evolves_weaken; [|exact Hrest]; by intros ev [[? _] _]|].
  all: exists delta; split; [|done].
  all: rewrite Ht; subst w0; simpl; by rewrite <- (assoc_L (++)).
Qed.


(** ** Deadline *)

Lemma maybe_resolve_late c s spam_votes not_spam_votes total env w :
  status c = OPEN →
  clock env (tick w) >= closes_at c →
  _maybe_resolve c s spam_votes not_spam_votes total env w
  = _close_case c s true env (next_tick w).
Proof.
  intros Ho Hlate. unfold _maybe_resolve.
  rewrite bool_decide_eq_true_2 by done. simpl.
  rewrite run_bind. unfold now at 1.
  apply geb_ge in Hlate. by rewrite Hlate.
Qed.

(** C4. Deadline dominance: an open case evaluated at or after its
    deadline is closed as EXPIRED whatever the tally; the evaluation
    returns an EXPIRED record (never a CONFIRMED one), stores EXPIRED,
    and after the status commit emits no enforcement. *)
Theorem deadline_dominates c s spam_votes not_spam_votes total env w :
  status c = OPEN →
  clock env (tick w) >= closes_at c →
  let r := _maybe_resolve c s spam_votes not_spam_votes total env w in
  (∀ c', r.1 = Ret c' → status c' = EXPIRED)
  ∧ (∀ c0, cases w !! id c = Some c0 → status <$> cases r.2 !! id c = Some EXPIRED)
  ∧ ∃ delta, trace r.2 = trace w ++ Committed (SetCaseStatus (id c) EXPIRED) :: delta
             ∧ Forall harmless delta.
Proof.
  intros Ho Hlate r. subst r.
  rewrite (maybe_resolve_late c s spam_votes not_spam_votes total env w) by done.
  destruct (close_case_spec c s true env (next_tick w)) as (Hret & Hcases & Htrace).
  simpl in *. split; [|split].
  - intros c' Hc'. by rewrite (Hret c' Hc').
  - intros c0 Hc0. rewrite Hcases, lookup_alter, decide_True by done.
    by rewrite Hc0.
  - exact Htrace.
Qed.

Lemma deadline_dominates_witness :
  let c := case1 OPEN ∅ 5 in
  let w := world1 c [] in
  let r := _maybe_resolve c ChatSettings_default 5 0 5 (calm 2000) w in
  (status c = OPEN ∧ clock (calm 2000) (tick w) >= closes_at c)
  ∧ (∀ c', r.1 = Ret c' → status c' = EXPIRED)
  ∧ (∀ c0, cases w !! id c = Some c0 → status <$> cases r.2 !! id c = Some EXPIRED)
  ∧ ∃ delta, trace r.2 = trace w ++ Committed (SetCaseStatus (id c) EXPIRED) :: delta
             ∧ Forall harmless delta.
Proof.
  intros c w r.
  assert (status c = OPEN) as H1 by reflexivity.
  assert (clock (calm 2000) (tick w) >= closes_at c) as H2 by (vm_compute; discriminate).
  split; [by split|].
  exact (deadline_dominates c ChatSettings_default 5 0 5 (calm 2000) w H1 H2).
Defined.

(** The claim of C3 fails on the vote path: a vote callback on an open
    case past its deadline leaves the case EXPIRED, not REJECTED. *)
Lemma vote_after_deadline_is_expired_not_rejected :
  let c := case1 OPEN ∅ 5 in
  let w := world1 c [] in
  let w' := (handle_vote_callback (Some "jury:vote:1:spam") 7 (calm 2000) w).2 in
  status <$> cases w !! 1 = Some OPEN
  ∧ closes_at c < clock (calm 2000) 0
  ∧ status <$> cases w' !! 1 = Some EXPIRED
  ∧ status <$> cases w' !! 1 ≠ Some REJECTED.
Proof. vm_compute. repeat split; congruence. Qed.

(** ** Which statuses are written *)

Lemma emits_handle_vote_callback (P : Event → Prop) data voter :
  (∀ k, P (Committed (SetCaseStatus k EXPIRED))) →
  (∀ k, P (Committed (SetCaseStatus k CONFIRMED))) →
  (∀ e, status_commit e = false → P e) →
  emits P (handle_vote_callback data voter).
Proof.
  intros He Hc H. unfold handle_vote_callback. cbv zeta.
  repeat emits_step; try emits_leaf.
  by apply emits_vote_on_open_case.
Qed.

Lemma emits_schedule_expiry_check (P : Event → Prop) k closes :
  (∀ k, P (Committed (SetCaseStatus k EXPIRED))) →
  (∀ e, harmless e → P e) →
  emits P (_schedule_expiry_check k closes).
Proof.
  intros He H. unfold _schedule_expiry_check. cbv zeta.
  repeat emits_step; try emits_leaf.
  by apply emits_close_case.
Qed.

Lemma emits_expire_overdue_cases (P : Event → Prop) :
  (∀ k, P (Committed (SetCaseStatus k EXPIRED))) →
  (∀ e, harmless e → P e) →
  emits P expire_overdue_cases.
Proof.
  intros He H. unfold expire_overdue_cases.
  repeat emits_step; try emits_leaf.
  apply emits_for_each. intros c _.
  repeat emits_step; try emits_leaf.
  by apply emits_close_case.
Qed.

(** The statuses an evaluation may write: EXPIRED, and CONFIRMED for a
    vote. *)
Lemma run_status_commits e :
  emits (λ ev, ∀ k st, ev = Committed (SetCaseStatus k st) →
           st = EXPIRED ∨ (st = CONFIRMED ∧ ∃ data voter, e = Vote data voter))
        (run e).
Proof.
  destruct e as [data voter|k closes|]; simpl.
  - apply emits_handle_vote_callback.
    + intros k k' st [= _ <-]. by left.
    + intros k k' st [= _ <-]. right. eauto.
    + intros e H k st ->. done.
  - apply emits_schedule_expiry_check.
    + intros k' k'' st [= _ <-]. by left.
    + intros e [[H _] _] k' st ->. done.
  - apply emits_expire_overdue_cases.
    + intros k' k'' st [= _ <-]. by left.
    + intros e [[H _] _] k' st ->. done.
Qed.

Lemma refresh_poll_late c s env w c0 :
  status c = OPEN →
  clock env (tick w) >= closes_at c →
  cases w !! id c = Some c0 →
  status <$> cases (_refresh_poll c s env w).2 !! id c = Some EXPIRED.
Proof.
  intros Ho Hlate Hc0. unfold _refresh_poll.
  rewrite run_bind. unfold get_votes at 1. cbv zeta.
  rewrite run_bind, maybe_resolve_late by done.
  destruct (close_case_spec c s true env (next_tick w)) as (Hret & Hcases & _).
  destruct (_close_case c s true env (next_tick w)) as [[c'|e] w1]; simpl in *.
  - rewrite (Hret c' eq_refl). simpl.
    rewrite Hcases, lookup_alter, decide_True by done. by rewrite Hc0.
  - rewrite Hcases, lookup_alter, decide_True by done. by rewrite Hc0.
Qed.

Lemma schedule_expiry_check_open c s closes env w :
  cases w !! id c = Some c →
  status c = OPEN →
  ChatSettings_init (config_snapshot c) = Some s →
  status <$> cases (_schedule_expiry_check (id c) closes env w).2 !! id c
  = Some EXPIRED.
Proof.
  intros Hc Ho Hs. unfold _schedule_expiry_check.
  rewrite run_bind. unfold now at 1. cbv zeta.
  rewrite run_bind. unfold sleep at 1.
  rewrite run_bind. unfold get_case at 1. simpl. rewrite Hc.
  rewrite bool_decide_eq_true_2 by done. simpl.
  rewrite run_bind. unfold settings_of at 1. rewrite Hs. simpl.
  rewrite run_bind.
  match goal with
  | |- context [ _close_case c s true env ?w2 ] =>
      destruct (close_case_spec c s true env w2) as (_ & Hcases & _);
      destruct (_close_case c s true env w2) as [[c'|e] w3]
  end; simpl in *.
  all: rewrite Hcases, lookup_alter, decide_True by done; by rewrite Hc.
Qed.

(** C3, as the code has it.  Past the deadline every path writes
    EXPIRED: the vote-triggered evaluation of an open case, the timer of
    an open case, and every status the sweep writes; the only other
    status an evaluation ever writes is CONFIRMED, by a vote.  REJECTED
    is written by no path. *)
Theorem deadline_status_is_expired c s env w :
  cases w !! id c = Some c →
  status c = OPEN →
  ChatSettings_init (config_snapshot c) = Some s →
  (clock env (tick w) >= closes_at c →
     status <$> cases (_refresh_poll c s env w).2 !! id c = Some EXPIRED)
  ∧ (∀ closes,
       status <$> cases (_schedule_expiry_check (id c) closes env w).2 !! id c
       = Some EXPIRED)
  ∧ (∀ e env' w',
       ∃ delta, trace (run e env' w').2 = trace w' ++ delta
                ∧ Forall (λ ev, ∀ k st, ev = Committed (SetCaseStatus k st) →
                            st = EXPIRED
                            ∨ (st = CONFIRMED ∧ ∃ data voter, e = Vote data voter))
                         delta).
Proof.
  intros Hc Ho Hs. split; [|split].
  - intros Hlate. by eapply refresh_poll_late.
  - intros closes. by eapply schedule_expiry_check_open.
  - intros e env' w'.
    destruct (evolves_trace _ _ _ (run_status_commits e env' w')) as (delta & Ht & Hd).
    by exists delta.
Qed.

Lemma deadline_status_is_expired_witness :
  let c := case1 OPEN ∅ 5 in
  let s := ChatSettings_default in
  let w := world1 c [] in
  (cases w !! id c = Some c ∧ status c = OPEN
   ∧ ChatSettings_init (config_snapshot c) = Some s
   ∧ clock (calm 2000) (tick w) >= closes_at c)
  ∧ status <$> cases (_refresh_poll c s (calm 2000) w).2 !! id c = Some EXPIRED
  ∧ status <$> cases (_schedule_expiry_check (id c) 1300 (calm 2000) w).2 !! id c
    = Some EXPIRED.
Proof.
  intros c s w.
  assert (cases w !! id c = Some c) as H1 by (vm_compute; reflexivity).
  assert (status c = OPEN) as H2 by reflexivity.
  assert (ChatSettings_init (config_snapshot c) = Some s) as H3
    by (vm_compute; reflexivity).
  assert (clock (calm 2000) (tick w) >= closes_at c) as H4
    by (vm_compute; discriminate).
  destruct (deadline_status_is_expired c s (calm 2000) w H1 H2 H3) as (Hv & Ht & _).
  split; [by repeat split|].
  split; [exact (Hv H4)|exact (Ht 1300)].
Defined.

(** ** Terminal statuses *)





Lemma run_monotone e env w :
  keyed (cases w) → monotone (cases w) (cases (run e env w).2).
Proof.
  intros Hkeyed.
  destruct (run_resolves e env w Hkeyed) as (st & Hst & Hev).
  eapply evolves_monotone; [|exact Hev]. by destruct Hst as [-> | ->].
Qed.




(** ** Enforcement *)

Lemma succeeds_bind {A B} (m : M A) (k : A → M B) env :
  succeeds m env → (∀ a, succeeds (k a) env) → succeeds (m ≫= k) env.
Proof.
  intros Hm Hk w. rewrite run_bind. destruct (Hm w) as [a Ha].
  destruct (m env w) as [[a'|e] w1]; simpl in *; [|done]. apply Hk.
Qed.


Lemma call_raises c env w e :
  only_bad_requests env → (call c env w).1 = Raise e → e = TelegramBadRequest.
Proof.
  intros Henv. unfold call.
  destruct (telegram env (tick w) c) as [e'|] eqn:E; simpl; [|done].
  intros [= <-]. by eapply Henv.
Qed.







(** Only [TelegramBadRequest] is caught: any other error of the member
    action leaves enforcement before the blacklist write. *)
Lemma other_transport_error_skips_blacklist :
  let c := case1 CONFIRMED ∅ 5 in
  let r := _enforce_actions c (settings_with_action "ban") (ban_unreachable 1000)
                            (world1 c []) in
  r.1 = Raise TelegramOtherError
  ∧ blacklist r.2 !! (chat_id c, offender_id c) = None.
Proof. vm_compute. by repeat split. Qed.

(** ** Enforcement comes after the commit *)













(** ** Votes *)










(** ** Callback data *)

Lemma split_colon_no_colon s : no_colon s = true → split_colon s = [s].
Proof.
  induction s as [|ch s IH]; [done|]. simpl.
  intros [Hch Hs]%andb_true_iff. apply negb_true_iff in Hch.
  by rewrite Hch, IH.
Qed.

Lemma split_colon_field a rest :
  no_colon a = true → split_colon (a +:+ ":" +:+ rest) = a :: split_colon rest.
Proof.
  induction a as [|ch a IH]; [done|]. simpl.
  intros [Hch Ha]%andb_true_iff. apply negb_true_iff in Hch.
  by rewrite Hch, IH.
Qed.

Lemma split_colon_vote ks tok :
  no_colon ks = true → no_colon tok = true →
  split_colon ("jury:vote:" +:+ ks +:+ ":" +:+ tok) = ["jury"; "vote"; ks; tok].
Proof.
  intros Hks Htok.
  change ("jury:vote:" +:+ ks +:+ ":" +:+ tok)
    with ("jury" +:+ ":" +:+ "vote" +:+ ":" +:+ ks +:+ ":" +:+ tok).
  by rewrite !split_colon_field, split_colon_no_colon.
Qed.



(** * Further properties *)

(** ** Construction and dump of settings *)

Lemma Qle_bool_inject (a b : Z) : Qle_bool (inject_Z a) (inject_Z b) = (a <=? b).
Proof. unfold Qle_bool. simpl. by rewrite !Z.mul_1_r. Qed.

Lemma within_unit q : within (Some 0%Q, Some 1%Q) (VFloat q) = in_unit q.
Proof. reflexivity. Qed.

Lemma within_lower (lo n : Z) :
  within (Some (Qmake lo 1), None) (VInt n) = (lo <=? n).
Proof.
  unfold within. simpl. rewrite andb_true_r. apply (Qle_bool_inject lo n).
Qed.

Lemma float_field_unit kw k dflt q :
  in_unit dflt = true →
  float_field kw k dflt (Some 0%Q, Some 1%Q) = Some q → in_unit q = true.
Proof.
  intros Hd. unfold float_field.
  destruct (kw !! k) as [[n|q'| |]|]; try done.
  - destruct (within _ _) eqn:E; [|done]. by intros [= <-].
  - destruct (within _ _) eqn:E; [|done]. by intros [= <-].
  - by intros [= <-].
Qed.

Lemma int_field_lower kw k dflt (lo n : Z) :
  (lo <=? dflt) = true →
  int_field kw k dflt (Some (Qmake lo 1), None) = Some n → (lo <=? n) = true.
Proof.
  intros Hd. unfold int_field.
  destruct (kw !! k) as [[n'| | |]|]; try done.
  - rewrite within_lower. destruct (lo <=? n') eqn:E; [|done]. by intros [= <-].
  - by intros [= <-].
Qed.

Lemma literal_field_allowed kw k dflt allowed x :
  dflt ∈ allowed →
  literal_field kw k dflt allowed = Some x → x ∈ allowed.
Proof.
  intros Hd. unfold literal_field.
  destruct (kw !! k) as [[| | |x']|]; try done.
  - case_bool_decide; [|done]. by intros [= <-].
  - by intros [= <-].
Qed.

(** X1. Whatever the keyword arguments, a settings object that the
    constructor returns satisfies every declared bound and literal set. *)
Theorem constructor_output_is_valid (kw : gmap string value) (s : ChatSettings) :
  ChatSettings_init kw = Some s → valid s = true.
Proof.
  unfold ChatSettings_init. intros H.
  repeat match type of H with
         | (_ ≫= _) = Some _ => apply bind_Some in H as (? & ? & H)
         end.
  injection H as <-. unfold valid. simpl.
  repeat (apply andb_true_iff; split);
    match goal with
    | H : float_field _ _ ?d _ = Some ?q |- Qle_bool _ _ = true =>
        apply (float_field_unit _ _ d q eq_refl) in H;
        apply andb_true_iff in H; by destruct H
    | H : literal_field _ _ _ _ = Some ?x |- bool_decide (?x ∈ _) = true =>
        apply bool_decide_eq_true;
        apply (literal_field_allowed _ _ _ _ x) in H; [exact H|set_solver]
    | H : int_field _ _ ?d _ = Some ?n |- (?l <=? ?n) = true =>
        exact (int_field_lower _ _ d l n eq_refl H)
    end.
Qed.

Lemma constructor_output_is_valid_witness :
  let kw : gmap string value := {[ "approval_ratio" := VFloat (3 # 4) ]} in
  let s := mkSettings (5 # 100) 5 (3 # 4) "ratio_and_count" "ban" 3600 true
                      14400 true 3 true 0 in
  ChatSettings_init kw = Some s ∧ valid s = true.
Proof.
  intros kw s.
  assert (ChatSettings_init kw = Some s) as H by (vm_compute; reflexivity).
  split; [exact H|]. exact (constructor_output_is_valid kw s H).
Defined.

(** X2. A valid settings object survives the snapshot round trip: the
    dictionary that [model_dump] writes into a case is accepted by the
    constructor and gives back the same settings. *)
Theorem snapshot_round_trip (s : ChatSettings) :
  valid s = true → ChatSettings_init (model_dump s) = Some s.
Proof.
  destruct s as [r c a q act m bl t ar mx ac ag]. unfold valid. simpl.
  rewrite !andb_true_iff.
  intros ((((((((Hr & Hc) & Ha) & Hq) & Hact) & Hm) & Ht) & Hmx) & Hag).
  unfold ChatSettings_init, float_field, int_field, bool_field, literal_field.
  set (d := model_dump _).
  assert (d !! "min_participation_ratio" = Some (VFloat r)) as -> by reflexivity.
  assert (d !! "min_participation_count" = Some (VInt c)) as -> by reflexivity.
  assert (d !! "approval_ratio" = Some (VFloat a)) as -> by reflexivity.
  assert (d !! "quorum_strategy" = Some (VStr q)) as -> by reflexivity.
  assert (d !! "action_on_confirm" = Some (VStr act)) as -> by reflexivity.
  assert (d !! "mute_duration_sec" = Some (VInt m)) as -> by reflexivity.
  assert (d !! "blacklist_enabled" = Some (VBool bl)) as -> by reflexivity.
  assert (d !! "vote_timeout_sec" = Some (VInt t)) as -> by reflexivity.
  assert (d !! "allow_vote_retract" = Some (VBool ar)) as -> by reflexivity.
  assert (d !! "max_cases_per_user_hour" = Some (VInt mx)) as -> by reflexivity.
  assert (d !! "auto_close_on_deleted_msg" = Some (VBool ac)) as -> by reflexivity.
  assert (d !! "min_account_age_hours" = Some (VInt ag)) as -> by reflexivity.
  rewrite !within_unit, Hr, Ha.
  rewrite (within_lower 1 c), (within_lower 60 m), (within_lower 30 t),
    (within_lower 1 mx), (within_lower 0 ag), Hc, Hm, Ht, Hmx, Hag, Hq, Hact.
  reflexivity.
Qed.

Lemma snapshot_round_trip_witness :
  valid ChatSettings_default = true
  ∧ ChatSettings_init (model_dump ChatSettings_default) = Some ChatSettings_default.
Proof.
  assert (valid ChatSettings_default = true) as H by reflexivity.
  split; [exact H|]. exact (snapshot_round_trip ChatSettings_default H).
Defined.

(** ** Merging overrides *)

Lemma merge_lookup self (overrides : gmap string value) k :
  merge self (Some overrides) !! k
  = match overrides !! k with
    | Some v => Some v
    | None => model_dump self !! k
    end.
Proof.
  unfold merge, model_copy. simpl. rewrite lookup_union.
  destruct (overrides !! k), (model_dump self !! k); done.
Qed.

(** X3. What [merge] does guarantee: a key that is not overridden keeps
    the value of the defaults, no overrides at all ([None] or the empty
    dictionary) give the defaults back, and when every overridden bounded
    field holds a number inside its declared range the merged snapshot
    satisfies all declared bounds. *)
Theorem merge_of_in_range_overrides self (overrides : gmap string value) :
  bounds_ok (model_dump self) = true →
  (∀ k b v, (k, b) ∈ declared_bounds → overrides !! k = Some v → within b v = true) →
  bounds_ok (merge self (Some overrides)) = true
  ∧ (∀ k, overrides !! k = None →
          merge self (Some overrides) !! k = model_dump self !! k)
  ∧ merge self None = model_dump self
  ∧ merge self (Some ∅) = model_dump self.
Proof.
  intros Hself Hov. split; [|split; [|split]].
  - unfold bounds_ok in *. rewrite forallb_forall in *.
    intros [k b] Hin. specialize (Hself (k, b) Hin). simpl in *.
    rewrite merge_lookup. destruct (overrides !! k) as [v|] eqn:E; [|done].
    eapply Hov; [|done]. by apply list_elem_of_In.
  - intros k Hk. by rewrite merge_lookup, Hk.
  - unfold merge, model_copy. simpl. apply (left_id_L ∅ (∪)).
  - unfold merge, model_copy. simpl. apply (left_id_L ∅ (∪)).
Qed.

Lemma merge_of_in_range_overrides_witness :
  let overrides : gmap string value :=
    {[ "approval_ratio" := VFloat (3 # 4); "vote_timeout_sec" := VInt 600 ]} in
  (bounds_ok (model_dump ChatSettings_default) = true
   ∧ ∀ k b v, (k, b) ∈ declared_bounds → overrides !! k = Some v → within b v = true)
  ∧ bounds_ok (merge ChatSettings_default (Some overrides)) = true.
Proof.
  intros overrides.
  assert (bounds_ok (model_dump ChatSettings_default) = true) as H1
    by (vm_compute; reflexivity).
  assert (∀ k b v, (k, b) ∈ declared_bounds → overrides !! k = Some v →
                   within b v = true) as H2.
  { intros k b v Hin. unfold declared_bounds in Hin.
    repeat (apply elem_of_cons in Hin as [[= -> ->]|Hin]);
      [..|by apply elem_of_nil in Hin];
      vm_compute; intros [= <-]; reflexivity || discriminate. }
  split; [by split|].
  exact (proj1 (merge_of_in_range_overrides ChatSettings_default overrides H1 H2)).
Defined.

(** ** The participant target *)


(** X5. The member count used at case creation: Telegram's answer when
    the request succeeds, the fallback 100 when it is refused with
    [TelegramBadRequest], and any other error is passed on. *)
Theorem fetch_member_count_fallback chat env w :
  (_fetch_member_count chat env w).1
  = match telegram env (tick w) (get_chat_member_count chat) with
    | None => Ret (member_count env (tick w))
    | Some TelegramBadRequest => Ret 100
    | Some e => Raise e
    end.
Proof.
  unfold _fetch_member_count, try_except_bad_request, call.
  by destruct (telegram env (tick w) _) as [[]|].
Qed.

(** ** Enforcement, step by step *)

Ltac run_unfold :=
  unfold _enforce_actions, _ban_user, _kick_user, _mute_user, blacklist_add,
    try_except_bad_request, call, log, sleep, now, commit, ret, mret, M_ret,
    mbind, M_bind, bind.

(** X6. With the action [delete_only] enforcement is the message
    deletion and nothing else: no member action, no blacklist write even
    when blacklist-on-confirm is enabled, no table changed; a refusal
    with [TelegramBadRequest] is logged and swallowed, any other error is
    passed on. *)
Theorem delete_only_only_deletes c s env w :
  action_on_confirm s = "delete_only" →
  let r := _enforce_actions c s env w in
  let deletion := delete_message (chat_id c) (message_id c) in
  let o := telegram env (tick w) deletion in
  trace r.2 = trace w ++ Called deletion o
                         :: match o with
                            | Some TelegramBadRequest => [Logged INFO]
                            | _ => []
                            end
  ∧ same_tables r.2 w
  ∧ r.1 = match o with
          | None | Some TelegramBadRequest => Ret ()
          | Some e => Raise e
          end.
Proof.
  intros Hact. run_unfold. rewrite Hact. simpl.
  destruct (telegram env (tick w) _) as [[]|]; simpl;
    rewrite <- ?(assoc_L (++)); by repeat split.
Qed.

Lemma delete_only_only_deletes_witness :
  let c := case1 CONFIRMED ∅ 5 in
  let s := settings_with_action "delete_only" in
  let r := _enforce_actions c s (calm 1000) (world1 c []) in
  action_on_confirm s = "delete_only"
  ∧ trace r.2 = [Called (delete_message (-123) 42) None]
  ∧ same_tables r.2 (world1 c []).
Proof.
  intros c s r.
  assert (action_on_confirm s = "delete_only") as H by reflexivity.
  destruct (delete_only_only_deletes c s (calm 1000) (world1 c []) H) as (Ha & Hb & _).
  split; [exact H|]. split; [exact Ha|exact Hb].
Defined.

(** X7. Failure isolation of the first step: with the action [ban] the
    member is banned right after the message deletion, also when the
    deletion was refused with [TelegramBadRequest]. *)
Theorem ban_follows_refused_deletion c s env w :
  action_on_confirm s = "ban" →
  let deletion := delete_message (chat_id c) (message_id c) in
  let ban := ban_chat_member (chat_id c) (offender_id c) in
  let o := telegram env (tick w) deletion in
  o = None ∨ o = Some TelegramBadRequest →
  ∃ rest,
    trace (_enforce_actions c s env w).2
    = trace w ++ Called deletion o
                 :: match o with Some _ => [Logged INFO] | None => [] end
                 ++ Called ban (telegram env (S (tick w)) ban) :: rest.
Proof.
  intros Hact deletion ban o Ho. subst o. run_unfold. rewrite Hact. simpl.
  fold deletion. fold ban.
  destruct Ho as [-> | ->]; simpl.
  - destruct (telegram env (S (tick w)) ban) as [[]|]; simpl;
      destruct (blacklist_enabled s); simpl;
      rewrite <- ?(assoc_L (++)); simpl; eauto.
  - destruct (telegram env (S (tick w)) ban) as [[]|]; simpl;
      destruct (blacklist_enabled s); simpl;
      rewrite <- ?(assoc_L (++)); simpl; eauto.
Qed.

Lemma ban_follows_refused_deletion_witness :
  let c := case1 CONFIRMED ∅ 5 in
  let s := settings_with_action "ban" in
  let env := mkEnv (λ n, 1000 + Z.of_nat n)
                   (λ _ call, match call with
                              | delete_message _ _ => Some TelegramBadRequest
                              | _ => None
                              end)
                   (λ _, 100) decimal_int in
  action_on_confirm s = "ban"
  ∧ ∃ rest,
      trace (_enforce_actions c s env (world1 c [])).2
      = [Called (delete_message (-123) 42) (Some TelegramBadRequest); Logged INFO;
         Called (ban_chat_member (-123) 1001) None] ++ rest.
Proof.
  intros c s env.
  assert (action_on_confirm s = "ban") as H by reflexivity.
  split; [exact H|].
  exact (ban_follows_refused_deletion c s env (world1 c []) H (or_intror eq_refl)).
Defined.

(** X8. A kick is a ban, one second of sleep and an unban: the unban is
    attempted exactly when the ban went through, and a refusal of either
    call with [TelegramBadRequest] is logged and swallowed. *)
Theorem kick_is_ban_sleep_unban chat user env w :
  let ban := ban_chat_member chat user in
  let unban := unban_chat_member chat user in
  let o1 := telegram env (tick w) ban in
  let o2 := telegram env (S (tick w)) unban in
  let r := _kick_user chat user env w in
  trace r.2
  = trace w
    ++ match o1 with
       | None => Called ban None :: Slept 1 :: Called unban o2
                 :: match o2 with
                    | Some TelegramBadRequest => [Logged WARNING]
                    | _ => []
                    end
       | Some TelegramBadRequest => [Called ban o1; Logged WARNING]
       | Some _ => [Called ban o1]
       end
  ∧ r.1 = match o1, o2 with
          | None, None | None, Some TelegramBadRequest
          | Some TelegramBadRequest, _ => Ret ()
          | None, Some e | Some e, _ => Raise e
          end.
Proof.
  intros ban unban o1 o2 r. subst r o1 o2. run_unfold. simpl.
  fold ban. fold unban.
  destruct (telegram env (tick w) ban) as [[]|]; simpl;
    rewrite <- ?(assoc_L (++)); try done.
  destruct (telegram env (S (tick w)) unban) as [[]|]; simpl;
    rewrite <- ?(assoc_L (++)); done.
Qed.

(** ** The quorum decision *)

Lemma emits_anything_enforce c s : emits (λ _, True) (_enforce_actions c s).
Proof. by apply emits_enforce_actions. Qed.







(** ** Callbacks that are turned down *)

(** X10. Callback data is acted upon only when it has exactly four
    colon-separated fields: with fewer the callback is answered with the
    alert "invalid vote data" and nothing else happens; with more the
    handler raises [ValueError] (the unpacking of the fields) before it
    answers or touches anything. *)
Theorem callback_needs_four_fields data voter env w :
  let n := length (split_colon (default "" data)) in
  ((n < 4)%nat →
     handle_vote_callback data voter env w
     = call (answer "无效的投票数据。" true) env w)
  ∧ ((4 < n)%nat →
     handle_vote_callback data voter env w = (Raise ValueError, w)).
Proof.
  intros n. subst n. unfold handle_vote_callback. cbv zeta. split; intros Hn.
  - apply Nat.ltb_lt in Hn. by rewrite Hn.
  - destruct (split_colon (default "" data)) as [|p [|a [|ks [|tok [|x l]]]]];
      simpl in Hn; try lia. done.
Qed.

Lemma callback_needs_four_fields_witness :
  let w := world1 (case1 OPEN ∅ 5) [] in
  ((length (split_colon "jury:vote:1") < 4)%nat
   ∧ (4 < length (split_colon "jury:vote:1:spam:again"))%nat)
  ∧ handle_vote_callback (Some "jury:vote:1") 7 (calm 1000) w
    = call (answer "无效的投票数据。" true) (calm 1000) w
  ∧ handle_vote_callback (Some "jury:vote:1:spam:again") 7 (calm 1000) w
    = (Raise ValueError, w).
Proof.
  intros w.
  assert (length (split_colon "jury:vote:1") < 4)%nat as H1 by (vm_compute; lia).
  assert (4 < length (split_colon "jury:vote:1:spam:again"))%nat as H2
    by (vm_compute; lia).
  split; [by split|]. split.
  - exact (proj1 (callback_needs_four_fields (Some "jury:vote:1") 7 (calm 1000) w) H1).
  - exact (proj2 (callback_needs_four_fields (Some "jury:vote:1:spam:again") 7
                    (calm 1000) w) H2).
Defined.



(** ** Snapshots the constructor refuses *)

Lemma for_each_raises {A} (l : list A) (body : A → M unit) env x :
  x ∈ l →
  (∀ w, ∃ e, (body x env w).1 = Raise e) →
  ∀ w, ∃ e, (for_each l body env w).1 = Raise e.
Proof.
  intros Hx Hbody. induction l as [|y l IH]; intros w.
  { by apply elem_of_nil in Hx. }
  simpl. rewrite run_bind. apply elem_of_cons in Hx as [<-|Hx].
  - destruct (Hbody w) as [e He]. destruct (body x env w) as [[[]|e'] w1]; [done|].
    by exists e'.
  - destruct (body y env w) as [[[]|e'] w1]; simpl; [by apply IH|by exists e'].
Qed.

(** X12. An open case whose settings snapshot the constructor refuses
    (e.g. one created under an out-of-range override) can neither be
    voted on nor expired: the timer and every vote callback for it raise
    [ValidationError] without writing anything, and once the case is
    overdue the startup sweep raises as well. *)
Theorem refused_snapshot_blocks_case c env w :
  cases w !! id c = Some c →
  status c = OPEN →
  ChatSettings_init (config_snapshot c) = None →
  (∀ closes,
     _schedule_expiry_check (id c) closes env w
     = (Raise ValidationError,
        emit (Slept (Z.max (closes - clock env (tick w)) 0)) (next_tick w)))
  ∧ (∀ data voter p ks tok,
       split_colon (default "" data) = [p; "vote"; ks; tok] →
       int_of_str env ks = Some (id c) →
       handle_vote_callback data voter env w = (Raise ValidationError, w))
  ∧ (clock env (tick w) >= closes_at c →
       ∃ e, (expire_overdue_cases env w).1 = Raise e).
Proof.
  intros Hc Ho Hbad. split; [|split].
  - intros closes. unfold _schedule_expiry_check.
    rewrite run_bind. unfold now at 1. cbv zeta.
    rewrite run_bind. unfold sleep at 1.
    rewrite run_bind. unfold get_case at 1. simpl. rewrite Hc.
    rewrite bool_decide_eq_true_2 by done. simpl.
    rewrite run_bind. unfold settings_of. by rewrite Hbad.
  - intros data voter p ks tok Hsplit Hint.
    rewrite (handle_vote_callback_open data voter env w p ks tok (id c) c) by done.
    unfold vote_on_open_case. rewrite run_bind. unfold settings_of. by rewrite Hbad.
  - intros Hlate. unfold expire_overdue_cases.
    rewrite run_bind. unfold now at 1.
    rewrite run_bind. unfold list_open_cases at 1. simpl.
    apply (for_each_raises _ _ env c).
    + apply list_elem_of_filter. split; [done|].
      apply list_elem_of_fmap. exists (id c, c). split; [done|].
      by apply elem_of_map_to_list.
    + intros w1. exists ValidationError.
      apply geb_ge in Hlate. rewrite Hlate.
      rewrite run_bind. unfold settings_of. by rewrite Hbad.
Qed.

Lemma refused_snapshot_blocks_case_witness :
  let c := case1 OPEN {[ "approval_ratio" := VFloat 5 ]} 5 in
  let w := world1 c [] in
  let env := calm 2000 in
  (cases w !! id c = Some c ∧ status c = OPEN
   ∧ ChatSettings_init (config_snapshot c) = None
   ∧ clock env (tick w) >= closes_at c)
  ∧ (_schedule_expiry_check 1 1300 env w).1 = Raise ValidationError
  ∧ status <$> cases (_schedule_expiry_check 1 1300 env w).2 !! 1 = Some OPEN
  ∧ ∃ e, (expire_overdue_cases env w).1 = Raise e.
Proof.
  intros c w env.
  assert (cases w !! id c = Some c) as H1 by (vm_compute; reflexivity).
  assert (status c = OPEN) as H2 by reflexivity.
  assert (ChatSettings_init (config_snapshot c) = None) as H3
    by (vm_compute; reflexivity).
  assert (clock env (tick w) >= closes_at c) as H4 by (vm_compute; discriminate).
  destruct (refused_snapshot_blocks_case c env w H1 H2 H3) as (Ht & _ & Hs).
  split; [by repeat split|].
  change 1 with (id c) at 1 3. rewrite (Ht 1300).
  split; [done|]. split; [by vm_compute|]. exact (Hs H4).
Defined.

(** ** The timer *)

(** X13. The timer of a case sleeps for the time left to the deadline,
    never a negative time, and only then looks at the case; if the case
    is not in the store or no longer open it does nothing more. *)
Theorem timer_sleeps_then_rechecks case_id closes env w :
  let delay := Z.max (closes - clock env (tick w)) 0 in
  let r := _schedule_expiry_check case_id closes env w in
  0 <= delay
  ∧ (∃ rest, trace r.2 = trace w ++ Slept delay :: rest)
  ∧ ((∀ c, cases w !! case_id = Some c → status c ≠ OPEN) →
       r = (Ret (), emit (Slept delay) (next_tick w))).
Proof.
  intros delay r. subst r. split; [lia|].
  unfold _schedule_expiry_check. split.
  - rewrite run_bind. unfold now at 1. cbv zeta. fold delay.
    rewrite run_bind. unfold sleep at 1.
    set (w2 := emit (Slept delay) (next_tick w)).
    match goal with
    | |- context [ (?m ≫= ?k) env w2 ] =>
        assert (emits (λ _, True) (m ≫= k)) as Hrest
    end.
    { repeat emits_step; try emits_leaf. by apply emits_close_case. }
    destruct (evolves_trace _ _ _ (Hrest env w2)) as (d & Hd & _).
    exists d. rewrite Hd. subst w2. simpl. by rewrite <- (assoc_L (++)).
  - intros Hclosed.
    rewrite run_bind. unfold now at 1. cbv zeta. fold delay.
    rewrite run_bind. unfold sleep at 1.
    rewrite run_bind. unfold get_case at 1. simpl.
    destruct (cases w !! case_id) as [c|] eqn:Hc; [|done].
    by rewrite bool_decide_eq_false_2 by by apply Hclosed.
Qed.

Lemma timer_sleeps_then_rechecks_witness :
  let c := case1 CONFIRMED ∅ 5 in
  let w := world1 c [] in
  (∀ c', cases w !! 1 = Some c' → status c' ≠ OPEN)
  ∧ _schedule_expiry_check 1 1300 (calm 1000) w
    = (Ret (), emit (Slept 300) (next_tick w)).
Proof.
  intros c w.
  assert (∀ c', cases w !! 1 = Some c' → status c' ≠ OPEN) as H.
  { intros c'. vm_compute. by intros [= <-]. }
  split; [exact H|].
  exact (proj2 (proj2 (timer_sleeps_then_rechecks 1 1300 (calm 1000) w)) H).
Defined.

(** ** The startup sweep *)

Lemma open_cases_listed (m : gmap Z CaseRecord) c :
  c ∈ filter (λ c, status c = OPEN) (map_to_list m).*2
  ↔ status c = OPEN ∧ ∃ k, m !! k = Some c.
Proof.
  rewrite list_elem_of_filter, list_elem_of_fmap. split.
  - intros [Ho ([k c'] & -> & Hin)]. split; [done|]. exists k.
    by apply elem_of_map_to_list.
  - intros [Ho [k Hk]]. split; [done|]. exists (k, c). split; [done|].
    by apply elem_of_map_to_list.
Qed.

(** X14. The sweep touches only what is due: a case that is not open, or
    whose deadline is still ahead when the sweep reads the clock, keeps
    its row, whatever else happens during the sweep; and the sweep never
    enforces. *)
Theorem sweep_spares_what_is_not_due env w k c :
  keyed (cases w) →
  cases w !! k = Some c →
  status c ≠ OPEN ∨ clock env (tick w) < closes_at c →
  cases (expire_overdue_cases env w).2 !! k = Some c
  ∧ ∃ delta, trace (expire_overdue_cases env w).2 = trace w ++ delta
             ∧ Forall (λ ev, enforcement ev = false) delta.
Proof.
  intros Hkeyed Hk Hspare.
  set (P := λ ev : Event,
         enforcement ev = false
         ∧ ∀ k' st, ev = Committed (SetCaseStatus k' st) →
             ∃ c', cases w !! k' = Some c' ∧ status c' = OPEN
                   ∧ clock env (tick w) >= closes_at c').
  assert (evolves P w (expire_overdue_cases env w).2) as Hev.
  { unfold expire_overdue_cases.
    rewrite run_bind. unfold now at 1.
    rewrite run_bind. unfold list_open_cases at 1. simpl.
    eapply evolves_trans; [apply evolves_tick|].
    apply emits_for_each. intros c' Hin.
    apply open_cases_listed in Hin as [Ho [k' Hk']].
    destruct (clock env (tick w) >=? closes_at c') eqn:Hdue; [|apply emits_ret].
    apply geb_ge in Hdue.
    apply emits_bind; [apply emits_settings_of|]. intros s.
    apply emits_bind; [|intros ?; apply emits_ret].
    apply emits_close_case.
    - split; [done|]. intros k'' st [= <- <-]. exists c'.
      by rewrite (Hkeyed _ _ Hk').
    - intros ev [[Hs _] He]. split; [done|]. by intros k'' st ->. }
  destruct Hev as (delta & Ht & Hall & Hc & _). split.
  - rewrite Hc, <- Hk. apply replay_case_untouched.
    eapply Forall_impl; [exact Hall|].
    intros ev [_ Hev] st ->.
    destruct (Hev k st eq_refl) as (c' & Hc' & Ho & Hdue).
    rewrite Hk in Hc'. injection Hc' as <-. destruct Hspare; [done|lia].
  - exists delta. split; [done|]. eapply Forall_impl; [exact Hall|]. by intros ev [? _].
Qed.

Lemma sweep_spares_what_is_not_due_witness :
  let c := case1 OPEN ∅ 5 in
  let w := world1 c [] in
  let env := calm 1000 in
  (keyed (cases w) ∧ cases w !! 1 = Some c
   ∧ (status c ≠ OPEN ∨ clock env (tick w) < closes_at c))
  ∧ cases (expire_overdue_cases env w).2 !! 1 = Some c.
Proof.
  intros c w env.
  assert (keyed (cases w)) as H1 by (by apply map_Forall_singleton).
  assert (cases w !! 1 = Some c) as H2 by (vm_compute; reflexivity).
  assert (status c ≠ OPEN ∨ clock env (tick w) < closes_at c) as H3
    by (right; vm_compute; reflexivity).
  split; [by repeat split|].
  exact (proj1 (sweep_spares_what_is_not_due env w 1 c H1 H2 H3)).
Defined.

Lemma close_case_returns c s expired env w :
  only_bad_requests env → ∃ c', (_close_case c s expired env w).1 = Ret c'.
Proof.
  intros Henv. unfold _close_case. cbv zeta.
  rewrite run_bind. unfold set_case_status at 1, commit at 1.
  rewrite run_bind.
  destruct (truthy _ && truthy _); [|by eauto].
  unfold try_except_bad_request.
  match goal with
  | |- context [ call ?b env ?w0 ] =>
      pose proof (call_raises b env w0) as Hcall;
      destruct (call b env w0) as [[[]|e] w1]; simpl in *; [by eauto|]
  end.
  rewrite (Hcall e Henv eq_refl). by eauto.
Qed.

Lemma sweep_loop t l env :
  only_bad_requests env →
  (∀ c, c ∈ l → t >= closes_at c → is_Some (ChatSettings_init (config_snapshot c))) →
  ∀ w, ∃ w',
    for_each l (λ case,
      if t >=? closes_at case
      then settings ← settings_of (config_snapshot case);
           _close_case case settings true ;; ret ()
      else ret ()) env w = (Ret (), w')
    ∧ cases w'
      = foldl (λ m c, if t >=? closes_at c
                      then alter (with_status EXPIRED) (id c) m else m)
              (cases w) l.
Proof.
  intros Henv. induction l as [|c l IH]; intros Hvalid w; [by exists w|].
  simpl. rewrite run_bind.
  assert (∀ c', c' ∈ l → t >= closes_at c' →
                is_Some (ChatSettings_init (config_snapshot c'))) as Hl.
  { intros c' Hin. apply Hvalid. by right. }
  destruct (t >=? closes_at c) eqn:Hdue.
  - destruct (Hvalid c) as [s Hs]; [by left|by apply geb_ge|].
    rewrite run_bind. unfold settings_of at 1. rewrite Hs. simpl.
    rewrite run_bind.
    destruct (close_case_returns c s true env w Henv) as [c' Hret].
    destruct (close_case_spec c s true env w) as (_ & Hcases & _).
    destruct (_close_case c s true env w) as [[c1|e] w1]; [|done]. simpl in *.
    destruct (IH Hl w1) as (w' & H1 & H2). exists w'. split; [done|].
    by rewrite H2, Hcases.
  - apply (IH Hl w).
Qed.

Lemma swept_expired t l (m : gmap Z CaseRecord) k c0 :
  m !! k = Some (with_status EXPIRED c0) →
  foldl (λ m c, if t >=? closes_at c
                then alter (with_status EXPIRED) (id c) m else m) m l !! k
  = Some (with_status EXPIRED c0).
Proof.
  revert m. induction l as [|c l IH]; intros m Hk; simpl; [done|].
  apply IH. destruct (t >=? closes_at c); [|done].
  destruct (decide (id c = k)) as [<-|Hne].
  - by rewrite lookup_alter, decide_True, Hk.
  - by rewrite lookup_alter_ne.
Qed.

Lemma swept_due t l (m : gmap Z CaseRecord) k c0 :
  m !! k = Some c0 →
  (∃ x, x ∈ l ∧ id x = k ∧ t >= closes_at x) →
  foldl (λ m c, if t >=? closes_at c
                then alter (with_status EXPIRED) (id c) m else m) m l !! k
  = Some (with_status EXPIRED c0).
Proof.
  revert m. induction l as [|c l IH]; intros m Hk (x & Hin & Hid & Hdue); simpl.
  { by apply elem_of_nil in Hin. }
  apply elem_of_cons in Hin as [->|Hin].
  - apply geb_ge in Hdue. rewrite Hdue. apply swept_expired.
    by rewrite Hid, lookup_alter, decide_True, Hk.
  - destruct (t >=? closes_at c); [|by eauto].
    destruct (decide (id c = k)) as [<-|Hne].
    + apply swept_expired. by rewrite lookup_alter, decide_True, Hk.
    + apply IH; [by rewrite lookup_alter_ne|by eauto].
Qed.

(** X15. The sweep is complete when nothing fails: if no transport call
    raises anything but [TelegramBadRequest] and the snapshot of every
    overdue open case is accepted by the constructor, the sweep returns
    and every case that was open with its deadline reached is EXPIRED
    afterwards, the rest of its row unchanged. *)
Theorem sweep_expires_all_overdue env w :
  keyed (cases w) →
  only_bad_requests env →
  (∀ k c, cases w !! k = Some c → status c = OPEN →
          clock env (tick w) >= closes_at c →
          is_Some (ChatSettings_init (config_snapshot c))) →
  (expire_overdue_cases env w).1 = Ret ()
  ∧ ∀ k c, cases w !! k = Some c → status c = OPEN →
           clock env (tick w) >= closes_at c →
           cases (expire_overdue_cases env w).2 !! k = Some (with_status EXPIRED c).
Proof.
  intros Hkeyed Henv Hvalid.
  set (t := clock env (tick w)) in *.
  set (l := filter (λ c, status c = OPEN) (map_to_list (cases w)).*2).
  destruct (sweep_loop t l env Henv) with (w := next_tick w) as (w' & Hrun & Hcases).
  { intros c Hin Hdue. apply open_cases_listed in Hin as [Ho [k Hk]]. by eapply Hvalid. }
  assert (expire_overdue_cases env w = (Ret (), w')) as -> by (by rewrite <- Hrun).
  split; [done|]. intros k c Hk Ho Hdue. simpl.
  rewrite Hcases. apply swept_due; [done|].
  exists c. split; [|split; [by apply (Hkeyed k c)|done]].
  apply open_cases_listed. eauto.
Qed.

Lemma sweep_expires_all_overdue_witness :
  let c := case1 OPEN ∅ 5 in
  let w := world1 c [] in
  let env := calm 2000 in
  (keyed (cases w) ∧ only_bad_requests env
   ∧ (∀ k c', cases w !! k = Some c' → status c' = OPEN →
              clock env (tick w) >= closes_at c' →
              is_Some (ChatSettings_init (config_snapshot c')))
   ∧ cases w !! 1 = Some c ∧ status c = OPEN ∧ clock env (tick w) >= closes_at c)
  ∧ (expire_overdue_cases env w).1 = Ret ()
  ∧ cases (expire_overdue_cases env w).2 !! 1 = Some (with_status EXPIRED c).
Proof.
  intros c w env.
  assert (keyed (cases w)) as H1 by (by apply map_Forall_singleton).
  assert (only_bad_requests env) as H2 by (intros n call e; discriminate).
  assert (∀ k c', cases w !! k = Some c' → status c' = OPEN →
                  clock env (tick w) >= closes_at c' →
                  is_Some (ChatSettings_init (config_snapshot c'))) as H3.
  { intros k c' Hk _ _. change (cases w) with ({[ id c := c ]} : gmap Z CaseRecord) in Hk.
    apply lookup_singleton_Some in Hk as [_ <-].
    exists ChatSettings_default. vm_compute. reflexivity. }
  assert (cases w !! 1 = Some c) as H4 by (vm_compute; reflexivity).
  assert (status c = OPEN) as H5 by reflexivity.
  assert (clock env (tick w) >= closes_at c) as H6 by (vm_compute; discriminate).
  destruct (sweep_expires_all_overdue env w H1 H2 H3) as [Ha Hb].
  split; [by repeat split|]. split; [exact Ha|exact (Hb 1 c H4 H5 H6)].
Defined.

(** ** The ballot keyboard *)

Lemma no_colon_pretty_N_go x s : no_colon s = true → no_colon (pretty_N_go x s) = true.
Proof.
  revert s. induction (N.lt_wf_0 x) as [x _ IH]; intros s Hs.
  assert (x = 0 ∨ 0 < x)%N as [->|Hpos] by lia.
  - by rewrite pretty_N_go_0.
  - rewrite pretty_N_go_step by done. apply IH; [by apply N.div_lt|].
    simpl. rewrite Hs, andb_true_r.
    unfold pretty_N_char. by repeat case_match.
Qed.

Lemma no_colon_pretty_N (x : N) : no_colon (pretty x) = true.
Proof.
  unfold pretty, pretty_N. case_decide; [done|]. by apply no_colon_pretty_N_go.
Qed.

Lemma no_colon_pretty (k : Z) : no_colon (pretty k) = true.
Proof.
  destruct k as [|p|p]; [done|apply (no_colon_pretty_N (Npos p))|].
  change (pretty (Z.neg p)) with ("-" +:+ pretty (Npos p)). simpl.
  apply (no_colon_pretty_N (Npos p)).
Qed.

(** X16. Every button of the ballot keyboard carries callback data of
    the form [jury:vote:<case id>:<token>] that splits into exactly the
    four fields the vote handler reads, with the token [spam], [not] or
    [retract]; the retract button is there only when retraction is
    allowed, and keyboards of different cases share no callback data. *)
Theorem keyboard_data_decodes (case_id : Z) (allow_retract : bool) row label data :
  row ∈ _build_keyboard case_id allow_retract →
  (label, data) ∈ row →
  ∃ tok, data = "jury:vote:" +:+ pretty case_id +:+ ":" +:+ tok
         ∧ split_colon data = ["jury"; "vote"; pretty case_id; tok]
         ∧ (tok = "spam" ∨ tok = "not" ∨ (tok = "retract" ∧ allow_retract = true))
         ∧ ∀ other allow' row' label',
             row' ∈ _build_keyboard other allow' → (label', data) ∈ row' →
             other = case_id.
Proof.
  assert (∀ k allow r l d, r ∈ _build_keyboard k allow → (l, d) ∈ r →
            ∃ tok, d = "jury:vote:" +:+ pretty k +:+ ":" +:+ tok
                   ∧ no_colon tok = true
                   ∧ (tok = "spam" ∨ tok = "not" ∨ (tok = "retract" ∧ allow = true)))
    as Hshape.
  { intros k allow r l d Hr Hd. unfold _build_keyboard in Hr.
    destruct allow; simpl in Hr.
    - apply elem_of_cons in Hr as [->|Hr].
      + apply elem_of_cons in Hd as [[= -> ->]|Hd]; [exists "spam"; split; [done|split; [done|by left]]|].
        apply elem_of_cons in Hd as [[= -> ->]|Hd]; [exists "not"; split; [done|split; [done|by right; left]]|].
        by apply elem_of_nil in Hd.
      + apply elem_of_cons in Hr as [->|Hr]; [|by apply elem_of_nil in Hr].
        apply elem_of_cons in Hd as [[= -> ->]|Hd]; [exists "retract"; split; [done|split; [done|by right; right]]|].
        by apply elem_of_nil in Hd.
    - apply elem_of_cons in Hr as [->|Hr]; [|by apply elem_of_nil in Hr].
      apply elem_of_cons in Hd as [[= -> ->]|Hd]; [exists "spam"; split; [done|split; [done|by left]]|].
      apply elem_of_cons in Hd as [[= -> ->]|Hd]; [exists "not"; split; [done|split; [done|by right; left]]|].
      by apply elem_of_nil in Hd. }
  intros Hr Hd.
  destruct (Hshape _ _ _ _ _ Hr Hd) as (tok & -> & Htok & Hwhich).
  exists tok. split; [done|].
  assert (split_colon ("jury:vote:" +:+ pretty case_id +:+ ":" +:+ tok)
          = ["jury"; "vote"; pretty case_id; tok]) as Hsplit.
  { apply split_colon_vote; [apply no_colon_pretty|done]. }
  split; [done|]. split; [done|].
  intros other allow' row' label' Hr' Hd'.
  destruct (Hshape _ _ _ _ _ Hr' Hd') as (tok' & Heq & Htok' & _).
  rewrite Heq in Hsplit.
  rewrite split_colon_vote in Hsplit by (apply no_colon_pretty || done).
  injection Hsplit as Hk _. by apply (inj pretty) in Hk.
Qed.

Lemma keyboard_data_decodes_witness :
  let row := [("↩ 撤回投票", "jury:vote:12:retract")] in
  (row ∈ _build_keyboard 12 true ∧ ("↩ 撤回投票", "jury:vote:12:retract") ∈ row)
  ∧ ∃ tok, "jury:vote:12:retract" = "jury:vote:" +:+ pretty 12 +:+ ":" +:+ tok
           ∧ split_colon "jury:vote:12:retract" = ["jury"; "vote"; pretty 12; tok].
Proof.
  intros row.
  assert (row ∈ _build_keyboard 12 true) as H1 by (vm_compute; right; left).
  assert (("↩ 撤回投票", "jury:vote:12:retract") ∈ row) as H2 by left.
  split; [by split|].
  destruct (keyboard_data_decodes 12 true row _ _ H1 H2) as (tok & Ha & Hb & _).
  exists tok. by split.
Defined.




(** ** The live ballot *)




(** * The permission check of the admin service *)

Lemma Qlt_bool_lt (x y : Q) : Qlt_bool x y = true ↔ (x < y)%Q.
Proof.
  unfold Qlt_bool. rewrite negb_true_iff. split.
  - intros H. apply Qnot_le_lt. intros Hle. apply Qle_bool_iff in Hle. congruence.
  - intros H. apply not_true_iff_false. intros Hle. apply Qle_bool_iff in Hle.
    by apply Qlt_not_le in H.
Qed.

Lemma Qlt_ttl (now : Q) : (now < now + _admin_cache_ttl)%Q.
Proof.
  rewrite <- (Qplus_0_r now) at 1. apply Qplus_lt_r. reflexivity.
Qed.

Lemma cache_hit chat env a expiry ids :
  _admin_cache a !! chat = Some (expiry, ids) →
  (time env (served a) < expiry)%Q →
  _get_admin_ids chat env a = (Ret ids, observe [] a).
Proof.
  intros Hc Hlt. unfold _get_admin_ids. rewrite Hc.
  apply Qlt_bool_lt in Hlt. by rewrite Hlt.
Qed.

(** X19. Whatever [_get_admin_ids] returns for a chat is in the cache
    afterwards with an expiry that lies ahead, and until that expiry a
    further call returns the same ids without any transport request.
    This includes the empty set that stands for a refused request. *)
Theorem admin_ids_are_remembered chat env a ids a1 :
  _get_admin_ids chat env a = (Ret ids, a1) →
  ∃ expiry,
    _admin_cache a1 !! chat = Some (expiry, ids)
    ∧ (time env (served a) < expiry)%Q
    ∧ ∀ env', (time env' (served a1) < expiry)%Q →
        _get_admin_ids chat env' a1 = (Ret ids, observe [] a1).
Proof.
  intros Hrun.
  assert (∃ expiry, _admin_cache a1 !! chat = Some (expiry, ids)
                    ∧ (time env (served a) < expiry)%Q) as (expiry & Hc & Hlt).
  { unfold _get_admin_ids in Hrun.
    assert (∀ r, match chat_administrators env (served (observe [] a)) chat with
                 | inl admins =>
                     (Ret (list_to_set (user_id <$> List.filter is_administrator admins)),
                      remember chat ((time env (served a) + _admin_cache_ttl)%Q,
                                     list_to_set (user_id <$> List.filter is_administrator admins))
                        (observe [GetChatAdministrators chat] (observe [] a)))
                 | inr TelegramBadRequest =>
                     (Ret ∅, remember chat ((time env (served a) + _admin_cache_ttl)%Q, ∅)
                               (observe [GetChatAdministrators chat; Warning] (observe [] a)))
                 | inr e => (Raise e, observe [GetChatAdministrators chat] (observe [] a))
                 end = r → r = (Ret ids, a1) →
                 ∃ expiry, _admin_cache a1 !! chat = Some (expiry, ids)
                           ∧ (time env (served a) < expiry)%Q) as Hfetch.
    { intros r <-. destruct (chat_administrators env _ chat) as [admins|[]];
        intros [= <- <-] || intros [=]; simpl;
        eexists; (split; [apply lookup_insert_eq|apply Qlt_ttl]). }
    destruct (_admin_cache a !! chat) as [[expiry ids0]|] eqn:Hc.
    - destruct (Qlt_bool (time env (served a)) expiry) eqn:Hlt.
      + injection Hrun as <- <-. exists expiry. split; [done|]. by apply Qlt_bool_lt.
      + by eapply Hfetch.
    - by eapply Hfetch. }
  exists expiry. split; [done|]. split; [done|].
  intros env' Hlt'. by apply (cache_hit chat env' a1 expiry ids).
Qed.

Lemma admin_ids_are_remembered_witness :
  let env := mkAdminEnv (λ n, inject_Z (1000 + Z.of_nat n))
                        (λ _ _, inl [mkMember 7 ChatMemberOwner; mkMember 8 ChatMemberMember])
                        (λ _ _ _, inl "member") in
  let a := mkAdmin ∅ ∅ [] 0 in
  let r := _get_admin_ids (-123) env a in
  r = (Ret {[ 7 ]}, r.2)
  ∧ ∃ expiry, _admin_cache r.2 !! (-123) = Some (expiry, {[ 7 ]}).
Proof.
  intros env a r.
  assert (r = (Ret {[ 7 ]}, r.2)) as H.
  { subst r. unfold _get_admin_ids. simpl. by f_equal. }
  split; [exact H|].
  destruct (admin_ids_are_remembered (-123) env a {[ 7 ]} r.2 H) as (expiry & Hc & _).
  by exists expiry.
Defined.

Lemma get_admin_ids_fetch chat env a :
  (∀ expiry ids, _admin_cache a !! chat = Some (expiry, ids) →
                 (expiry <= time env (served a))%Q) →
  _get_admin_ids chat env a
  = match chat_administrators env (S (served a)) chat with
    | inl admins =>
        (Ret (list_to_set (user_id <$> List.filter is_administrator admins)),
         remember chat ((time env (served a) + _admin_cache_ttl)%Q,
                        list_to_set (user_id <$> List.filter is_administrator admins))
           (observe [GetChatAdministrators chat] (observe [] a)))
    | inr TelegramBadRequest =>
        (Ret ∅, remember chat ((time env (served a) + _admin_cache_ttl)%Q, ∅)
                  (observe [GetChatAdministrators chat; Warning] (observe [] a)))
    | inr e => (Raise e, observe [GetChatAdministrators chat] (observe [] a))
    end.
Proof.
  intros Hstale. unfold _get_admin_ids. simpl.
  destruct (_admin_cache a !! chat) as [[expiry ids]|] eqn:Hc; [|done].
  specialize (Hstale expiry ids eq_refl).
  apply Qle_bool_iff in Hstale. unfold Qlt_bool. by rewrite Hstale.
Qed.

(** X20. A missing or expired cache entry costs exactly one
    [get_chat_administrators] request.  From its answer exactly the
    users of owner or administrator class are kept, for 300 seconds; a
    refusal with [TelegramBadRequest] is logged and cached as the empty
    set for the same time; any other error is passed on and the cache
    stays as it was. *)
Theorem stale_entry_is_fetched chat env a :
  (∀ expiry ids, _admin_cache a !! chat = Some (expiry, ids) →
                 (expiry <= time env (served a))%Q) →
  let r := _get_admin_ids chat env a in
  let entry ids := Some ((time env (served a) + 300)%Q, ids) in
  match chat_administrators env (S (served a)) chat with
  | inl admins =>
      ∃ ids, r.1 = Ret ids
             ∧ (∀ u, u ∈ ids ↔ ∃ m, m ∈ admins ∧ user_id m = u
                                     ∧ (member_class m = ChatMemberOwner
                                        ∨ member_class m = ChatMemberAdministrator))
             ∧ _admin_cache r.2 !! chat = entry ids
             ∧ requests r.2 = requests a ++ [GetChatAdministrators chat]
  | inr TelegramBadRequest =>
      r.1 = Ret ∅
      ∧ _admin_cache r.2 !! chat = entry ∅
      ∧ requests r.2 = requests a ++ [GetChatAdministrators chat; Warning]
  | inr e =>
      r.1 = Raise e
      ∧ _admin_cache r.2 = _admin_cache a
      ∧ requests r.2 = requests a ++ [GetChatAdministrators chat]
  end.
Proof.
  intros Hstale r entry. subst r entry.
  rewrite (get_admin_ids_fetch chat env a Hstale).
  destruct (chat_administrators env (S (served a)) chat) as [admins|[]]; simpl;
    rewrite ?app_nil_r, ?lookup_insert_eq; try done.
  eexists. split; [done|]. split; [|done].
  intros u. rewrite elem_of_list_to_set, list_elem_of_fmap. split.
  - intros (m & -> & Hm). apply list_elem_of_In, filter_In in Hm as [Hin Hcl].
    exists m. split; [by apply list_elem_of_In|]. split; [done|].
    unfold is_administrator in Hcl. destruct (member_class m); auto; discriminate.
  - intros (m & Hin & <- & Hcl). exists m. split; [done|].
    apply list_elem_of_In, filter_In. split; [by apply list_elem_of_In|].
    unfold is_administrator. by destruct Hcl as [-> | ->].
Qed.

Lemma stale_entry_is_fetched_witness :
  let env := mkAdminEnv (λ n, inject_Z (1000 + Z.of_nat n))
                        (λ _ _, inr TelegramBadRequest) (λ _ _ _, inl "member") in
  let a := mkAdmin ∅ {[ (-123) := (inject_Z 900, {[ 7 ]}) ]} [] 0 in
  (∀ expiry ids, _admin_cache a !! (-123) = Some (expiry, ids) →
                 (expiry <= time env (served a))%Q)
  ∧ (_get_admin_ids (-123) env a).1 = Ret ∅
  ∧ requests (_get_admin_ids (-123) env a).2 = [GetChatAdministrators (-123); Warning].
Proof.
  intros env a.
  assert (∀ expiry ids, _admin_cache a !! (-123) = Some (expiry, ids) →
                        (expiry <= time env (served a))%Q) as H.
  { intros expiry ids. simpl. rewrite lookup_singleton_eq. intros [= <- <-].
    apply Qle_bool_iff. reflexivity. }
  split; [exact H|].
  destruct (stale_entry_is_fetched (-123) env a H) as (Ha & _ & Hb).
  split; [exact Ha|exact Hb].
Defined.

(** X21. When the administrator list of a chat is known and not empty,
    it alone decides about a user who is no owner of the bot: the check
    returns whether the user is listed and makes no [get_chat_member]
    request. *)
Theorem listed_administrators_decide user chat env a ids a1 :
  user ∉ owner_ids a →
  _get_admin_ids chat env a = (Ret ids, a1) →
  ids ≠ ∅ →
  ensure_admin user chat env a = (Ret (bool_decide (user ∈ ids)), a1).
Proof.
  intros Hown Hrun Hne. unfold ensure_admin.
  rewrite bool_decide_eq_false_2 by done. rewrite Hrun.
  destruct (bool_decide (user ∈ ids)); [done|].
  by rewrite (bool_decide_eq_false_2 (ids = ∅)).
Qed.

Lemma listed_administrators_decide_witness :
  let env := mkAdminEnv (λ n, inject_Z (1000 + Z.of_nat n))
                        (λ _ _, inr TelegramOtherError) (λ _ _ _, inl "creator") in
  let a := mkAdmin {[ 1 ]} {[ (-123) := (inject_Z 1200, {[ 7 ]}) ]} [] 0 in
  ((8 ∉ owner_ids a) ∧ _get_admin_ids (-123) env a = (Ret {[ 7 ]}, observe [] a)
   ∧ ({[ 7 ]} : gset Z) ≠ ∅)
  ∧ ensure_admin 8 (-123) env a = (Ret false, observe [] a).
Proof.
  intros env a.
  assert (8 ∉ owner_ids a) as H1 by (simpl; set_solver).
  assert (_get_admin_ids (-123) env a = (Ret {[ 7 ]}, observe [] a)) as H2.
  { apply (cache_hit _ _ _ (inject_Z 1200)); [apply lookup_singleton_eq|].
    apply Qlt_bool_lt. reflexivity. }
  assert (({[ 7 ]} : gset Z) ≠ ∅) as H3 by set_solver.
  split; [by repeat split|].
  rewrite (listed_administrators_decide 8 (-123) env a {[ 7 ]} _ H1 H2 H3).
  reflexivity.
Defined.

(** X22. A refused administrator list is not asked for again within 300
    seconds: during that time every check of a user who is no owner
    makes one [get_chat_member] request and no other, and is decided by
    the status that request returns (creator or administrator), with
    [TelegramBadRequest] counting as no. *)
Theorem refused_list_is_not_retried user chat env env' a :
  user ∉ owner_ids a →
  (∀ expiry ids, _admin_cache a !! chat = Some (expiry, ids) →
                 (expiry <= time env (served a))%Q) →
  chat_administrators env (S (served a)) chat = inr TelegramBadRequest →
  let a1 := (_get_admin_ids chat env a).2 in
  (time env' (served a1) < time env (served a) + 300)%Q →
  let r := ensure_admin user chat env' a1 in
  requests r.2 = requests a1 ++ [GetChatMember chat user]
  ∧ r.1 = match chat_member_status env' (S (served a1)) chat user with
          | inl status => Ret (bool_decide (status = "creator" ∨ status = "administrator"))
          | inr TelegramBadRequest => Ret false
          | inr e => Raise e
          end.
Proof.
  intros Hown Hstale Hrefused a1 Hsoon r.
  pose proof (get_admin_ids_fetch chat env a Hstale) as Hf.
  rewrite Hrefused in Hf.
  assert (_admin_cache a1 !! chat = Some ((time env (served a) + 300)%Q, ∅)) as Hc.
  { subst a1. rewrite Hf. simpl. apply lookup_insert_eq. }
  assert (owner_ids a1 = owner_ids a) as Hsame.
  { subst a1. by rewrite Hf. }
  subst r. unfold ensure_admin.
  rewrite bool_decide_eq_false_2 by (by rewrite Hsame).
  rewrite (cache_hit chat env' a1 _ ∅ Hc Hsoon).
  rewrite bool_decide_eq_false_2 by set_solver.
  rewrite (bool_decide_eq_true_2 (∅ = ∅)) by done. simpl.
  split.
  - destruct (chat_member_status env' _ chat user) as [|[]]; simpl;
      by rewrite app_nil_r.
  - destruct (chat_member_status env' _ chat user) as [status|[]]; try done.
    simpl. f_equal. apply bool_decide_ext.
    rewrite !elem_of_cons, elem_of_nil. tauto.
Qed.

Lemma refused_list_is_not_retried_witness :
  let env := mkAdminEnv (λ n, inject_Z (1000 + Z.of_nat n))
                        (λ _ _, inr TelegramBadRequest) (λ _ _ _, inl "administrator") in
  let a := mkAdmin ∅ ∅ [] 0 in
  let a1 := (_get_admin_ids (-123) env a).2 in
  ((8 ∉ owner_ids a)
   ∧ chat_administrators env (S (served a)) (-123) = inr TelegramBadRequest
   ∧ (time env (served a1) < time env (served a) + 300)%Q)
  ∧ (ensure_admin 8 (-123) env a1).1 = Ret true
  ∧ requests (ensure_admin 8 (-123) env a1).2
    = [GetChatAdministrators (-123); Warning; GetChatMember (-123) 8].
Proof.
  intros env a a1.
  assert (8 ∉ owner_ids a) as H1 by (simpl; set_solver).
  assert (∀ expiry ids, _admin_cache a !! (-123) = Some (expiry, ids) →
                        (expiry <= time env (served a))%Q) as H2.
  { intros expiry ids. simpl. by rewrite lookup_empty. }
  assert (chat_administrators env (S (served a)) (-123) = inr TelegramBadRequest) as H3
    by reflexivity.
  assert (time env (served a1) < time env (served a) + 300)%Q as H4 by reflexivity.
  destruct (refused_list_is_not_retried 8 (-123) env env a H1 H2 H3 H4) as [Ha Hb].
  split; [by repeat split|]. split; [exact Hb|exact Ha].
Defined.

Lemma manageable_chats_owner user chats env a :
  user ∈ owner_ids a →
  manageable_chats user chats env a
  = (Ret ((λ '(chat_id, title), (chat_id, display chat_id title)) <$> chats), a).
Proof.
  intros Hown. induction chats as [|[chat_id title] rest IH]; [done|].
  simpl. unfold ensure_admin at 1. rewrite bool_decide_eq_true_2 by done.
  by rewrite IH.
Qed.

(** X23. An owner of the bot passes every permission check without any
    transport request or cache access, and so manages every stored chat:
    the list comes back complete and in order, an empty title replaced
    by the printed chat id. *)
Theorem owners_manage_everything user env a :
  user ∈ owner_ids a →
  (∀ chat, ensure_admin user chat env a = (Ret true, a))
  ∧ ∀ chats,
      manageable_chats user chats env a
      = (Ret ((λ '(chat_id, title), (chat_id, display chat_id title)) <$> chats), a).
Proof.
  intros Hown. split.
  - intros chat. unfold ensure_admin. by rewrite bool_decide_eq_true_2.
  - intros chats. by apply manageable_chats_owner.
Qed.

Lemma owners_manage_everything_witness :
  let env := mkAdminEnv (λ n, inject_Z (1000 + Z.of_nat n))
                        (λ _ _, inr TelegramOtherError) (λ _ _ _, inr TelegramOtherError) in
  let a := mkAdmin {[ 1 ]} ∅ [] 0 in
  1 ∈ owner_ids a
  ∧ manageable_chats 1 [(-123, "Dev"); (-456, EmptyString)] env a
    = (Ret [(-123, "Dev"); (-456, "-456")], a).
Proof.
  intros env a.
  assert (1 ∈ owner_ids a) as H by (simpl; set_solver).
  split; [exact H|].
  exact (proj2 (owners_manage_everything 1 env a H) [(-123, "Dev"); (-456, EmptyString)]).
Defined.

Lemma display_not_empty chat_id title : display chat_id title ≠ EmptyString.
Proof.
  unfold display. case_bool_decide; [|done].
  destruct chat_id as [|p|p]; [done| |done].
  change (pretty (Z.pos p)) with (pretty (N.pos p)).
  unfold pretty, pretty_N. case_decide; [done|].
  intros Hempty.
  assert (String.length (pretty_N_go (N.pos p) EmptyString) = 0%nat) as Hlen
    by (by rewrite Hempty).
  revert Hlen. generalize EmptyString at 1 as acc.
  cut (∀ (x : N) acc, (0 < x)%N → String.length (pretty_N_go x acc) ≠ 0%nat).
  { intros Hgo acc. by apply Hgo. }
  clear. intros x. induction (N.lt_wf_0 x) as [x _ IH]. intros acc Hx.
  rewrite pretty_N_go_step by done.
  destruct (decide (x `div` 10 = 0)%N) as [->|Hd].
  - by rewrite pretty_N_go_0.
  - apply IH; [apply N.div_lt; lia|by apply N.neq_0_lt_0].
Qed.

(** X24. Whatever the user, the chats reported as manageable are a
    selection of the stored chats, in their order, and none of them is
    shown under an empty name. *)
Theorem manageable_chats_selects user chats env a result a1 :
  manageable_chats user chats env a = (Ret result, a1) →
  result `sublist_of` ((λ '(chat_id, title), (chat_id, display chat_id title)) <$> chats)
  ∧ ∀ chat_id name, (chat_id, name) ∈ result → name ≠ EmptyString.
Proof.
  revert a result. induction chats as [|[chat_id title] rest IH]; intros a result.
  - intros [= <- <-]. split; [done|]. intros ?? Hin. by apply elem_of_nil in Hin.
  - simpl. destruct (ensure_admin user chat_id env a) as [[ok|e] a0]; [|done].
    destruct (manageable_chats user rest env a0) as [[res|e] a2] eqn:Hrest; [|done].
    intros [= <- <-]. destruct (IH a0 res Hrest) as [Hsub Hname].
    destruct ok.
    + split; [by apply sublist_skip|].
      intros c n Hin. apply elem_of_cons in Hin as [[= -> ->]|Hin];
        [apply display_not_empty|by eapply Hname].
    + split; [by apply sublist_cons|done].
Qed.

Lemma manageable_chats_selects_witness :
  let env := mkAdminEnv (λ n, inject_Z (1000 + Z.of_nat n))
                        (λ _ chat, if chat =? -123 then inl [mkMember 8 ChatMemberAdministrator]
                                   else inl [mkMember 9 ChatMemberOwner])
                        (λ _ _ _, inl "member") in
  let a := mkAdmin ∅ ∅ [] 0 in
  let r := manageable_chats 8 [(-123, EmptyString); (-456, "Ops")] env a in
  r.1 = Ret [(-123, "-123")]
  ∧ [(-123, "-123")] `sublist_of` [(-123, "-123"); (-456, "Ops")].
Proof.
  intros env a r.
  assert (r = (Ret [(-123, "-123")], r.2)) as H.
  { subst r. vm_compute manageable_chats. reflexivity. }
  split; [by rewrite H|].
  exact (proj1 (manageable_chats_selects 8 [(-123, EmptyString); (-456, "Ops")] env a
                  [(-123, "-123")] r.2 H)).
Defined.

(** * Reports *)

Lemma run_and_then {A B} (m : R A) (k : A → R B) env d :
  (m ≫= k) env d
  = match m env d with
    | (Done a, d') => k a env d'
    | (Failed e, d') => (Failed e, d')
    | (IntegrityError, d') => (IntegrityError, d')
    | (Unmodelled, d') => (Unmodelled, d')
    end.
Proof. reflexivity. Qed.

Lemma upserted_settings title ts (tbl : gmap Z ChatRow) chat :
  chat_settings (upserted title ts (tbl !! chat)) = overrides_of tbl chat.
Proof. unfold overrides_of. by destruct (tbl !! chat). Qed.

(** The desk after the first steps of a report: the chat row is
    upserted and the clock was read twice. *)
Lemma open_case_prefix defaults chat title reporter msg offender env d :
  let ts := clock (engine env) (tick (world d)) in
  let now := clock (engine env) (S (tick (world d))) in
  let d1 := journaled (ChatUpserted chat (default EmptyString title) ts)
              (with_chats (<[chat := upserted (default EmptyString title) ts
                                       (chats d !! chat)]> (chats d))
                 (with_world (next_tick (next_tick (world d))) d)) in
  open_case defaults chat title reporter msg offender env d
  = match attributes (merge defaults (Some (overrides_of (chats d) chat))) with
    | None => (Unmodelled, d1)
    | Some s =>
        if recent_reports (cases (world d)) chat reporter (now - 3600)
           >=? max_cases_per_user_hour s
        then (Done "举报频率过高，请稍后再试。", d1)
        else match case_of_message (cases (world d)) chat msg with
             | Some c =>
                 (Done (if bool_decide (status c = OPEN)
                        then "该消息已经在投票中，请直接参与投票。"
                        else closed_text c), d1)
             | None => start_vote s chat reporter msg offender now env d1
             end
    end.
Proof.
  intros ts now0 d1. unfold open_case.
  rewrite run_and_then. unfold upsert_chat at 1. rewrite run_and_then.
  unfold lift_M at 1, now at 1, write_chat at 1.
  rewrite run_and_then. unfold load_settings at 1. rewrite run_and_then.
  unfold get_chat_settings at 1. simpl.
  rewrite lookup_insert_eq. simpl. rewrite upserted_settings.
  rewrite run_and_then. unfold lift_M at 1, now at 1. simpl.
  rewrite run_and_then. unfold count_recent_reports at 1. simpl.
  rewrite run_and_then. unfold typed at 1.
  fold ts. fold now0.
  destruct (attributes _) as [s|]; [|done].
  destruct (_ >=? _); [done|].
  rewrite run_and_then. unfold get_case_by_message at 1. simpl.
  destruct (case_of_message _ _ _) as [c|]; [|done].
  by destruct (bool_decide _).
Qed.

Lemma fetch_member_count_run chat env w :
  let o := telegram env (tick w) (get_chat_member_count chat) in
  _fetch_member_count chat env w
  = (match o with
     | None => Ret (member_count env (tick w))
     | Some TelegramBadRequest => Ret 100
     | Some e => Raise e
     end,
     next_tick (emit (Called (get_chat_member_count chat) o) w)).
Proof.
  intros o. unfold _fetch_member_count, try_except_bad_request, call. fold o.
  by destruct o as [[]|].
Qed.

Lemma no_case_no_conflict (tbl : gmap Z CaseRecord) chat msg :
  case_of_message tbl chat msg = None →
  ¬ Exists (λ c, chat_id c = chat ∧ message_id c = msg) (map_to_list tbl).*2.
Proof.
  unfold case_of_message. intros Hhead Hex.
  apply Exists_exists in Hex as (c & Hin & Hc).
  assert (c ∈ filter (λ c, chat_id c = chat ∧ message_id c = msg) (map_to_list tbl).*2)
    as Hf by (by apply list_elem_of_filter).
  destruct (filter _ _) as [|x l]; [by apply elem_of_nil in Hf|done].
Qed.

(** The desk after the last part of a report, given the member count
    and that the message has no case yet. *)
Lemma start_vote_run s chat reporter msg offender now0 env d :
  let w := world d in
  let o := telegram (engine env) (tick w) (get_chat_member_count chat) in
  let w2 := next_tick (emit (Called (get_chat_member_count chat) o) w) in
  let n := match o with None => member_count (engine env) (tick w) | Some _ => 100 end in
  let new_id := 1 + Z.max (sqlite_sequence d) (max_rowid (cases w)) in
  let closes := now0 + vote_timeout_sec s in
  let c := mkCase new_id chat msg offender reporter OPEN
                  (clock (engine env) (S (tick w))) closes None None
                  (model_dump s) (participant_target_for s n) in
  let sent := reply_result env (S (S (tick w))) in
  let ballot := Replied chat msg (_format_poll_text c s 0 0 0)
                        (_build_keyboard new_id (allow_vote_retract s)) sent in
  let d3 tbl acts :=
    mkDesk (mkWorld tbl (votes w) (blacklist w) (trace w2) (S (S (S (tick w)))))
           (chats d) new_id (journal d ++ acts) in
  case_of_message (cases w) chat msg = None →
  start_vote s chat reporter msg offender now0 env d
  = match o with
    | None | Some TelegramBadRequest =>
        match sent with
        | inl (pc, pm) =>
            (Done "已创建投票，邀请成员判断是否为 Spam 消息。",
             d3 (<[new_id := with_poll pc pm c]> (cases w))
                [CaseCreated c; ballot; PollAttached new_id pc pm;
                 TimerStarted new_id closes])
        | inr e => (Failed e, d3 (<[new_id := c]> (cases w)) [CaseCreated c; ballot])
        end
    | Some e => (Failed e, with_world w2 d)
    end.
Proof.
  intros w o w2 n new_id closes c sent ballot d3 Hnone.
  apply no_case_no_conflict in Hnone.
  unfold start_vote. rewrite run_and_then. unfold lift_M at 1.
  rewrite fetch_member_count_run. fold w. fold o. fold w2.
  assert (∀ n', n' = n →
            (create_case chat msg offender reporter closes (model_dump s)
               (participant_target_for s n')
             ≫= λ case,
                  reply chat msg (_format_poll_text case s 0 0 0)
                    (_build_keyboard (id case) (allow_vote_retract s))
                  ≫= λ sent0,
                       update_case_poll (id case) sent0.1 sent0.2
                       ≫= λ _, create_task (id case) closes
                               ≫= λ _, mret "已创建投票，邀请成员判断是否为 Spam 消息。")
              env (with_world w2 d)
            = match sent with
              | inl (pc, pm) =>
                  (Done "已创建投票，邀请成员判断是否为 Spam 消息。",
                   d3 (<[new_id := with_poll pc pm c]> (cases w))
                      [CaseCreated c; ballot; PollAttached new_id pc pm;
                       TimerStarted new_id closes])
              | inr e => (Failed e, d3 (<[new_id := c]> (cases w)) [CaseCreated c; ballot])
              end) as Hrest.
  { intros n' ->. rewrite run_and_then. unfold create_case at 1.
    rewrite run_and_then. unfold lift_M at 1, Runtime.now at 1. simpl.
    unfold insert_case at 1. simpl.
    rewrite bool_decide_eq_false_2 by done.
    rewrite run_and_then. unfold reply at 1. simpl.
    fold new_id. fold c. fold sent. fold ballot.
    destruct sent as [[pc pm]|e].
    - rewrite run_and_then. unfold update_case_poll at 1. simpl.
      rewrite run_and_then. unfold create_task at 1. simpl.
      unfold journaled, with_cases, with_world, d3. simpl.
      rewrite <- !(assoc_L (++)). simpl. by rewrite alter_insert_eq.
    - unfold journaled, with_world, d3. simpl. by rewrite <- (assoc_L (++)). }
  destruct o as [[]|]; try done; by apply Hrest.
Qed.

Lemma rows_of_table (tbl : gmap Z CaseRecord) c :
  c ∈ (map_to_list tbl).*2 ↔ ∃ k, tbl !! k = Some c.
Proof.
  rewrite list_elem_of_fmap. split.
  - intros ([k c'] & -> & Hin). exists k. by apply elem_of_map_to_list.
  - intros [k Hk]. exists (k, c). split; [done|]. by apply elem_of_map_to_list.
Qed.


Lemma case_of_message_Some (tbl : gmap Z CaseRecord) k c :
  unique_messages tbl →
  tbl !! k = Some c →
  case_of_message tbl (chat_id c) (message_id c) = Some c.
Proof.
  intros Huniq Hk. unfold case_of_message.
  destruct (filter _ _) as [|x l] eqn:Hf.
  - assert (c ∈ filter (λ c0, chat_id c0 = chat_id c ∧ message_id c0 = message_id c)
                       (map_to_list tbl).*2) as Hin.
    { apply list_elem_of_filter. split; [done|]. apply rows_of_table. eauto. }
    rewrite Hf in Hin. by apply elem_of_nil in Hin.
  - assert (x ∈ filter (λ c0, chat_id c0 = chat_id c ∧ message_id c0 = message_id c)
                       (map_to_list tbl).*2) as Hx by (rewrite Hf; left).
    apply list_elem_of_filter in Hx as [[Hc Hm] Hin].
    apply rows_of_table in Hin as [k' Hk'].
    assert (k' = k) as -> by (by eapply Huniq).
    simpl. congruence.
Qed.



(** The typed view is the inverse of [model_dump]. *)
Lemma attributes_of_dump s : attributes (model_dump s) = Some s.
Proof. destruct s. reflexivity. Qed.


(** X25. The rate limit comes first.  A reporter with at least
    [max_cases_per_user_hour] cases in this chat opened within the last
    3600 seconds, open or closed, is turned away whatever message is
    reported: no case is created, nothing is posted and no timer
    started; only the chat row was upserted. *)
Theorem rate_limit_comes_first defaults chat title reporter msg offender env d s :
  attributes (merge defaults (Some (overrides_of (chats d) chat))) = Some s →
  let now := clock (engine env) (S (tick (world d))) in
  recent_reports (cases (world d)) chat reporter (now - 3600)
  >= max_cases_per_user_hour s →
  let r := handle_report defaults
             (mkIncoming chat title (Some reporter)
                         (Some (mkFlagged msg (Some offender)))) env d in
  r.1 = Done "举报频率过高，请稍后再试。"
  ∧ cases (world r.2) = cases (world d)
  ∧ journal r.2
    = journal d ++ [ChatUpserted chat (default EmptyString title)
                                 (clock (engine env) (tick (world d)))].
Proof.
  intros Hs now0 Hmany r. subst r. unfold handle_report. simpl.
  rewrite open_case_prefix, Hs. fold now0.
  apply geb_ge in Hmany. by rewrite Hmany.
Qed.

Lemma open_case_duplicate defaults chat title reporter msg offender env d s c :
  attributes (merge defaults (Some (overrides_of (chats d) chat))) = Some s →
  recent_reports (cases (world d)) chat reporter
                 (clock (engine env) (S (tick (world d))) - 3600)
  < max_cases_per_user_hour s →
  case_of_message (cases (world d)) chat msg = Some c →
  ∃ d1,
    open_case defaults chat title reporter msg offender env d
    = (Done (if bool_decide (status c = OPEN)
             then "该消息已经在投票中，请直接参与投票。"
             else closed_text c), d1)
    ∧ cases (world d1) = cases (world d)
    ∧ journal d1
      = journal d ++ [ChatUpserted chat (default EmptyString title)
                                   (clock (engine env) (tick (world d)))].
Proof.
  intros Hs Hfew Hc. rewrite open_case_prefix, Hs, Hc.
  assert ((recent_reports (cases (world d)) chat reporter
             (clock (engine env) (S (tick (world d))) - 3600)
           >=? max_cases_per_user_hour s) = false) as ->.
  { apply not_true_iff_false. rewrite geb_ge. lia. }
  eexists. split; [done|]. by split.
Qed.

Lemma rate_limit_comes_first_witness :
  let c := case1 EXPIRED ∅ 5 in
  let d := mkDesk (world1 c []) ∅ 1 [] in
  let env := mkReportEnv (calm 1000) (λ _, inl (-123, 77)) in
  let defaults := mkSettings (5 # 100) 5 (6 # 10) "ratio_and_count" "ban" 3600 true
                             14400 true 1 true 0 in
  (attributes (merge defaults (Some (overrides_of (chats d) (-123)))) = Some defaults
   ∧ recent_reports (cases (world d)) (-123) 2002 (1001 - 3600)
     >= max_cases_per_user_hour defaults)
  ∧ (handle_report defaults
       (mkIncoming (-123) (Some "Dev") (Some 2002) (Some (mkFlagged 43 (Some 1002))))
       env d).1 = Done "举报频率过高，请稍后再试。".
Proof.
  intros c d env defaults.
  assert (attributes (merge defaults (Some (overrides_of (chats d) (-123))))
          = Some defaults) as H1 by (vm_compute; reflexivity).
  assert (recent_reports (cases (world d)) (-123) 2002 (1001 - 3600)
          >= max_cases_per_user_hour defaults) as H2 by (vm_compute; discriminate).
  split; [by split|].
  exact (proj1 (rate_limit_comes_first defaults (-123) (Some "Dev") 2002 43 1002
                  env d defaults H1 H2)).
Defined.

(** X26. One case per message.  A report of a message that already has
    a case, by a reporter under the rate limit, creates nothing: the
    answer says that the vote is running when the case is open, and
    names the case and its verdict when it is closed. *)
Theorem duplicate_report_is_refused defaults title reporter offender env d s k c :
  unique_messages (cases (world d)) →
  cases (world d) !! k = Some c →
  attributes (merge defaults (Some (overrides_of (chats d) (chat_id c)))) = Some s →
  recent_reports (cases (world d)) (chat_id c) reporter
                 (clock (engine env) (S (tick (world d))) - 3600)
  < max_cases_per_user_hour s →
  let r := handle_report defaults
             (mkIncoming (chat_id c) title (Some reporter)
                         (Some (mkFlagged (message_id c) (Some offender)))) env d in
  r.1 = Done (if bool_decide (status c = OPEN)
              then "该消息已经在投票中，请直接参与投票。"
              else closed_text c)
  ∧ cases (world r.2) = cases (world d)
  ∧ journal r.2
    = journal d ++ [ChatUpserted (chat_id c) (default EmptyString title)
                                 (clock (engine env) (tick (world d)))].
Proof.
  intros Huniq Hk Hs Hfew r. subst r. unfold handle_report. simpl.
  destruct (open_case_duplicate defaults (chat_id c) title reporter (message_id c)
              offender env d s c Hs Hfew) as (d1 & -> & Hcases & Hj).
  { by eapply case_of_message_Some. }
  done.
Qed.

Lemma duplicate_report_is_refused_witness :
  let c := case1 CONFIRMED ∅ 5 in
  let d := mkDesk (world1 c []) ∅ 1 [] in
  let env := mkReportEnv (calm 1000) (λ _, inl (-123, 77)) in
  let s := ChatSettings_default in
  (unique_messages (cases (world d)) ∧ cases (world d) !! 1 = Some c
   ∧ attributes (merge s (Some (overrides_of (chats d) (chat_id c)))) = Some s
   ∧ recent_reports (cases (world d)) (chat_id c) 3003 (1001 - 3600)
     < max_cases_per_user_hour s)
  ∧ (handle_report s
       (mkIncoming (-123) None (Some 3003) (Some (mkFlagged 42 (Some 1001)))) env d).1
    = Done "该消息已有案件 #1（已被判定为 Spam），无需再次发起。".
Proof.
  intros c d env s.
  assert (unique_messages (cases (world d))) as H1.
  { intros k1 k2 c1 c2 Hk1 Hk2 _ _.
    change (cases (world d)) with ({[ id c := c ]} : gmap Z CaseRecord) in Hk1, Hk2.
    apply lookup_singleton_Some in Hk1 as [<- _].
    by apply lookup_singleton_Some in Hk2 as [<- _]. }
  assert (cases (world d) !! 1 = Some c) as H2 by (vm_compute; reflexivity).
  assert (attributes (merge s (Some (overrides_of (chats d) (chat_id c)))) = Some s)
    as H3 by (vm_compute; reflexivity).
  assert (recent_reports (cases (world d)) (chat_id c) 3003 (1001 - 3600)
          < max_cases_per_user_hour s) as H4 by (vm_compute; reflexivity).
  split; [by repeat split|].
  exact (proj1 (duplicate_report_is_refused s None 3003 1001 env d s 1 c H1 H2 H3 H4)).
Defined.






(** What a report can do to the tables, whatever its input and the
    answers of the outside world. *)
Lemma handle_report_shape defaults message env d :
  ∃ o d',
    handle_report defaults message env d = (o, d')
    ∧ o ≠ IntegrityError
    ∧ votes (world d') = votes (world d)
    ∧ blacklist (world d') = blacklist (world d)
    ∧ (chats d' = chats d
       ∨ ∃ title ts,
           chats d' = <[in_chat_id message := upserted title ts
                                                (chats d !! in_chat_id message)]> (chats d))
    ∧ ((cases (world d') = cases (world d) ∧ sqlite_sequence d' = sqlite_sequence d)
       ∨ ∃ c,
           id c = 1 + Z.max (sqlite_sequence d) (max_rowid (cases (world d)))
           ∧ case_of_message (cases (world d)) (chat_id c) (message_id c) = None
           ∧ cases (world d') = <[id c := c]> (cases (world d))
           ∧ sqlite_sequence d' = id c).
Proof.
  assert (∀ (o : Outcome string) d',
            o ≠ IntegrityError →
            votes (world d') = votes (world d) →
            blacklist (world d') = blacklist (world d) →
            (chats d' = chats d
             ∨ ∃ title ts,
                 chats d' = <[in_chat_id message := upserted title ts
                                (chats d !! in_chat_id message)]> (chats d)) →
            cases (world d') = cases (world d) →
            sqlite_sequence d' = sqlite_sequence d →
            ∀ r, r = (o, d') →
            ∃ o d', r = (o, d')
              ∧ o ≠ IntegrityError
              ∧ votes (world d') = votes (world d)
              ∧ blacklist (world d') = blacklist (world d)
              ∧ (chats d' = chats d
                 ∨ ∃ title ts,
                     chats d' = <[in_chat_id message := upserted title ts
                                    (chats d !! in_chat_id message)]> (chats d))
              ∧ ((cases (world d') = cases (world d)
                  ∧ sqlite_sequence d' = sqlite_sequence d)
                 ∨ ∃ c,
                     id c = 1 + Z.max (sqlite_sequence d) (max_rowid (cases (world d)))
                     ∧ case_of_message (cases (world d)) (chat_id c) (message_id c) = None
                     ∧ cases (world d') = <[id c := c]> (cases (world d))
                     ∧ sqlite_sequence d' = id c)) as Hsame.
  { intros o d' ?????? r ->. exists o, d'. repeat (split; [done|]). by left. }
  unfold handle_report.
  destruct (in_reply_to_message message) as [[msg offender]|];
    [|by eapply Hsame; [| | | | | |reflexivity]; simpl; eauto].
  destruct (in_from_user message) as [reporter|]; [|by eapply Hsame; [| | | | | |reflexivity]; simpl; eauto].
  simpl. destruct offender as [offender|]; [|by eapply Hsame; [| | | | | |reflexivity]; simpl; eauto].
  rewrite open_case_prefix.
  destruct (attributes _) as [s|]; [|by eapply Hsame; [| | | | | |reflexivity]; simpl; eauto].
  destruct (_ >=? _); [by eapply Hsame; [| | | | | |reflexivity]; simpl; eauto|].
  destruct (case_of_message _ _ _) as [c|] eqn:Hnone; [by eapply Hsame; [| | | | | |reflexivity]; simpl; eauto|].
  rewrite start_vote_run by done. simpl.
  set (new_id := 1 + Z.max (sqlite_sequence d) (max_rowid (cases (world d)))).
  destruct (telegram (engine env) _ _) as [[]|];
    try (by eapply Hsame; [| | | | | |reflexivity]; simpl; eauto);
    destruct (reply_result env _) as [[pc pm]|e];
    (eexists _, _; split; [done|]; simpl; split; [done|]; split; [done|];
     split; [done|]; split; [eauto|]; right;
     match goal with
     | |- context [ <[new_id := ?c]> _ ] => exists c
     end; by repeat split).
Qed.




(** X30. Reports never touch a chat's overrides.  The upsert of the chat
    row at each report rewrites title and timestamp only, so whatever
    [set_chat_settings] stored for a chat is what the next report
    merges into the defaults; and storing overrides keeps the title. *)
Theorem overrides_survive_reports defaults message env d chat overrides :
  let d1 := (set_chat_settings chat overrides env d).2 in
  let d2 := (handle_report defaults message env d1).2 in
  overrides_of (chats d1) chat = overrides
  ∧ (get_chat_title chat env d1).1 = (get_chat_title chat env d).1
  ∧ (∀ other, other ≠ chat → chats d1 !! other = chats d !! other)
  ∧ overrides_of (chats d2) chat = overrides
  ∧ ∀ other, overrides_of (chats (handle_report defaults message env d).2) other
             = overrides_of (chats d) other.
Proof.
  intros d1 d2.
  assert (∀ d0 other, overrides_of (chats (handle_report defaults message env d0).2) other
                      = overrides_of (chats d0) other) as Hkeep.
  { intros d0 other.
    destruct (handle_report_shape defaults message env d0)
      as (o & d' & -> & _ & _ & _ & Hch & _). simpl.
    destruct Hch as [-> | (title & ts & ->)]; [done|].
    unfold overrides_of at 1.
    destruct (decide (other = in_chat_id message)) as [->|Hne].
    - rewrite lookup_insert_eq. simpl. apply upserted_settings.
    - by rewrite lookup_insert_ne. }
  assert (overrides_of (chats d1) chat = overrides) as Hset.
  { subst d1. unfold set_chat_settings, overrides_of. simpl.
    rewrite lookup_insert_eq. simpl. by destruct (chats d !! chat). }
  split; [done|]. split; [|split; [|split]].
  - subst d1. unfold get_chat_title, set_chat_settings. simpl.
    rewrite lookup_insert_eq. simpl. by destruct (chats d !! chat).
  - intros other Hne. subst d1. unfold set_chat_settings. simpl.
    by rewrite lookup_insert_ne.
  - subst d2. by rewrite Hkeep.
  - apply Hkeep.
Qed.
